(** * knows: discovery, enrichment, filtering and termination of port listeners

    A shallow embedding of [src/processManager.ts] and of the monitor loop of
    the [watch] command (second part of [src/commands/list.ts]), with the
    properties of the specification stated
    and settled against it.

    Conventions of the embedding.
    - A JS string is a [string]: a sequence of code units below 256.  The
      listing tools print ASCII; the white space of [\s] and of [trim] is the
      part of the ECMAScript set that lies in that range.  [toUpperCase]
      maps the ASCII letters; the code observes it only through the
      comparison with TCP and UDP, which no other character satisfies.
    - A JS number that holds a process id or a port is a [Z]: the integer
      itself when the number is finite, and plus or minus 2^1024 for the
      two infinities.  Every finite double is below 2^1024 in magnitude, so
      equality, order and the sign of a difference are those of [Z].
      [parseInt] gives the double nearest to the numeral it reads (ties to
      the even mantissa, as V8 rounds a decimal numeral): the integer itself
      below 2^53, a rounded one above, an infinity from 2^1024 - 2^970 on.
      A number is printed as its decimal numeral, which is what a template
      string gives for an integer below 10^21.
    - A promise is modelled by the value it settles with: [Ok v] when it
      resolves, [Throw e] when it rejects.
    - The operating system is a parameter: what the listing tool prints, what
      the process table answers, what [process.kill] and [taskkill] report. *)

From Stdlib Require Import ZArith Ascii String List Bool Lia Permutation Sorted.
From stdpp Require Import base option list strings gmap pretty.

Local Open Scope Z_scope.

(** ** String primitives of the JS runtime used by the source *)

Module JS.

(** White space of [\s], [String.prototype.trim] and [parseInt]. *)
Definition is_space (c : ascii) : bool :=
  match c with
  | "009" | "010" | "011" | "012" | "013" | " " | "160" => true
  | _ => false
  end%char.

(** Line terminators: what [.] of a regular expression does not match. *)
Definition is_line_terminator (c : ascii) : bool :=
  match c with
  | "010" | "013" => true
  | _ => false
  end%char.

(** [\d] *)
Definition is_digit (c : ascii) : bool :=
  let n := N_of_ascii c in ((48 <=? n) && (n <=? 57))%N.

Definition is_upper (c : ascii) : bool :=
  let n := N_of_ascii c in ((65 <=? n) && (n <=? 90))%N.

Definition is_lower (c : ascii) : bool :=
  let n := N_of_ascii c in ((97 <=? n) && (n <=? 122))%N.

(** [\w] *)
Definition is_word (c : ascii) : bool :=
  is_digit c || is_upper c || is_lower c || Ascii.eqb c "_".

Definition upper_char (c : ascii) : ascii :=
  if is_lower c then ascii_of_N (N_of_ascii c - 32) else c.

(** [String.prototype.toUpperCase] *)
Fixpoint toUpperCase (s : string) : string :=
  match s with
  | EmptyString => EmptyString
  | String c s' => String (upper_char c) (toUpperCase s')
  end.

Definition is_empty (s : string) : bool :=
  match s with EmptyString => true | _ => false end.

Fixpoint trimStart (s : string) : string :=
  match s with
  | String c s' => if is_space c then trimStart s' else s
  | EmptyString => EmptyString
  end.

Fixpoint trimEnd (s : string) : string :=
  match s with
  | EmptyString => EmptyString
  | String c s' =>
      let t := trimEnd s' in
      if is_space c && is_empty t then EmptyString else String c t
  end.

(** [String.prototype.trim] *)
Definition trim (s : string) : string := trimEnd (trimStart s).

(** [String.prototype.startsWith] *)
Fixpoint startsWith (s p : string) {struct p} : bool :=
  match p, s with
  | EmptyString, _ => true
  | String a p', String b s' => Ascii.eqb a b && startsWith s' p'
  | String _ _, EmptyString => false
  end.

Fixpoint last_char (s : string) : option ascii :=
  match s with
  | EmptyString => None
  | String c EmptyString => Some c
  | String _ s' => last_char s'
  end.

(** [s.endsWith(c)] for a one-character [c] *)
Definition endsWith_char (s : string) (c : ascii) : bool :=
  match last_char s with
  | Some d => Ascii.eqb d c
  | None => false
  end.

Fixpoint drop_last (s : string) : string :=
  match s with
  | EmptyString => EmptyString
  | String _ EmptyString => EmptyString
  | String c s' => String c (drop_last s')
  end.

(** [s.slice(1, -1)] *)
Definition slice_1_m1 (s : string) : string :=
  match s with
  | EmptyString => EmptyString
  | String _ s' => drop_last s'
  end.

(** Pushes a character on the first field of a split in progress. *)
Definition push_head (c : ascii) (fields : list string) : list string :=
  match fields with
  | t :: ts => String c t :: ts
  | [] => [String c EmptyString]
  end.

(** [s.split(/\r?\n/)] *)
Fixpoint split_lines (s : string) : list string :=
  match s with
  | EmptyString => [EmptyString]
  | String "010" s' => EmptyString :: split_lines s'
  | String "013" (String "010" s'') => EmptyString :: split_lines s''
  | String c s' => push_head c (split_lines s')
  end.

(** [s.split(/\s+/)]: [in_sep] says that the previous character belonged
    to a separator, which the current white space then only extends. *)
Fixpoint split_ws_from (in_sep : bool) (s : string) : list string :=
  match s with
  | EmptyString => [EmptyString]
  | String c s' =>
      if is_space c then
        if in_sep then split_ws_from true s'
        else EmptyString :: split_ws_from true s'
      else push_head c (split_ws_from false s')
  end.

Definition split_ws (s : string) : list string := split_ws_from false s.

Definition digit_value (c : ascii) : Z := Z.of_N (N_of_ascii c) - 48.

(** The longest prefix of decimal digits. *)
Fixpoint take_digits (s : string) : string :=
  match s with
  | String c s' => if is_digit c then String c (take_digits s') else EmptyString
  | EmptyString => EmptyString
  end.

Fixpoint all_digits (s : string) : bool :=
  match s with
  | String c s' => is_digit c && all_digits s'
  | EmptyString => true
  end.

(** The value of a string of decimal digits, read from the left. *)
Fixpoint decimal_from (acc : Z) (s : string) : Z :=
  match s with
  | String c s' => decimal_from (10 * acc + digit_value c) s'
  | EmptyString => acc
  end.

(** The optional sign in front of a numeral. *)
Definition split_sign (t : string) : Z * string :=
  match t with
  | String "-" r => (-1, r)
  | String "+" r => (1, r)
  | _ => (1, t)
  end.

(** [Infinity], as an integer above every finite double. *)
Definition infinity : Z := 2 ^ 1024.

(** [Number.isFinite(n)] for a number that is not [NaN]. *)
Definition isFinite (n : Z) : bool := Z.abs n <? infinity.

(** The number a mathematical integer becomes: the nearest double, a tie
    going to the even mantissa.  Below 2^53 every integer is a double.
    Above, the mantissa keeps the 53 leading bits: [e] low bits are cut,
    [q] is the mantissa, [r] the part cut off, and the mantissa goes up when
    [r] is more than half of the last place, or is half of it and [q] is
    odd.  What reaches 2^1024 is an infinity. *)
Definition round_double (v : Z) : Z :=
  let a := Z.abs v in
  if a <? 2 ^ 53 then v
  else
    let e := Z.log2 a - 52 in
    let q := a / 2 ^ e in
    let r := a mod 2 ^ e in
    let up := (2 ^ (e - 1) <? r) || ((2 ^ (e - 1) =? r) && Z.odd q) in
    let m := (if up then q + 1 else q) * 2 ^ e in
    Z.sgn v * (if m <? infinity then m else infinity).

(** [Number.parseInt(s, 10)]; [None] stands for [NaN].  Leading white
    space is skipped, one sign is read, then the longest run of digits;
    what follows the digits is ignored.  The result is the double of the
    integer read. *)
Definition parseInt (s : string) : option Z :=
  let '(sign, body) := split_sign (trimStart s) in
  let ds := take_digits body in
  if is_empty ds then None else Some (round_double (sign * decimal_from 0 ds)).

(** [Number.parseInt(x, 10)] for a value that may be [undefined] (an index
    past the end of an array): the argument is first converted to the
    string "undefined". *)
Definition parseInt_value (x : option string) : option Z :=
  match x with
  | Some s => parseInt s
  | None => parseInt "undefined"
  end.

Definition lower_char (c : ascii) : ascii :=
  if is_upper c then ascii_of_N (N_of_ascii c + 32) else c.

(** [String.prototype.toLowerCase] *)
Fixpoint toLowerCase (s : string) : string :=
  match s with
  | EmptyString => EmptyString
  | String c s' => String (lower_char c) (toLowerCase s')
  end.

(** What is left of a string after its longest prefix of digits. *)
Fixpoint skip_digits (s : string) : string :=
  match s with
  | String c s' => if is_digit c then skip_digits s' else s
  | EmptyString => EmptyString
  end.

(** [Array.prototype.join(sep)] on strings *)
Fixpoint join (sep : string) (pieces : list string) : string :=
  match pieces with
  | [] => EmptyString
  | [p] => p
  | p :: ps => String.append p (String.append sep (join sep ps))
  end.

(** [re.test(s)] for a character class [re] *)
Fixpoint has_char (P : ascii -> bool) (s : string) : bool :=
  match s with
  | EmptyString => false
  | String c s' => P c || has_char P s'
  end.

End JS.

(** ** The data model *)

(** [interface PortProcess]; an absent or [undefined] [command] is [None]. *)
Record PortProcess := mkPortProcess {
  pid : Z;
  port : Z;
  protocol : string;
  address : string;
  command : option string
}.

Global Instance PortProcess_eq_dec : EqDecision PortProcess.
Proof. solve_decision. Defined.

(** A value thrown or rejected with.  [is_Error] is [error instanceof Error];
    [stdout_prop] is [None] when the value has no [stdout] property, and
    [Some v] when it has one, [v] being [None] for [undefined] or [null]. *)
Record Thrown := mkThrown {
  is_Error : bool;
  code : option string;
  stdout_prop : option (option string);
  message : string
}.

Global Instance Thrown_eq_dec : EqDecision Thrown.
Proof. solve_decision. Defined.

(** How a promise settles. *)
Inductive Settled (A : Type) : Type :=
  | Ok (a : A)
  | Throw (e : Thrown).
Global Arguments Ok {A} a.
Global Arguments Throw {A} e.

(** ** Raw listener parsers *)

(** The bracket stripping shared by both parsers:
    [if (address.startsWith('[') && address.endsWith(']')) address = address.slice(1, -1)] *)
Definition strip_brackets (a : string) : string :=
  if JS.startsWith a "[" && JS.endsWith_char a "]" then JS.slice_1_m1 a else a.

(** The match of [parseAddress]: the whole token is any characters (greedy,
    no line terminator), a colon, and one or more digits.  The greedy group
    takes a character when the rest still matches, and otherwise stops in
    front of a colon that only digits follow up to the end.  The result is
    the pair of groups. *)
Fixpoint match_host_port (s : string) : option (string * string) :=
  match s with
  | EmptyString => None
  | String c s' =>
      match (if JS.is_line_terminator c then None else match_host_port s') with
      | Some (host, digits) => Some (String c host, digits)
      | None =>
          if Ascii.eqb c ":" && JS.all_digits s' && negb (JS.is_empty s')
          then Some (EmptyString, s')
          else None
      end
  end.

Definition parseAddress (token : string) : option (string * Z) :=
  match match_host_port token with
  | None => None
  | Some (host, digits) =>
      match JS.parseInt digits with
      | Some p => Some (strip_brackets host, p)
      | None => None
      end
  end.

(** One iteration of the loop of [getWindowsProcesses]: the records the line
    pushes on [results] (none or one). *)
Definition parseWindowsLine (rawLine : string) : list PortProcess :=
  let line := JS.trim rawLine in
  if JS.is_empty line || JS.startsWith line "Proto" || JS.startsWith line "Active"
  then []
  else
    let parts := JS.split_ws line in
    if (length parts <? 4)%nat then []
    else
      let protocol := JS.toUpperCase (default "" (parts !! 0%nat)) in
      let fields : option (option string * option string) :=
        if String.eqb protocol "TCP" then
          if (length parts <? 5)%nat then None
          else if negb (String.eqb (default "" (parts !! 3%nat)) "LISTENING") then None
          else Some (parts !! 1%nat, parts !! 4%nat)
        else if String.eqb protocol "UDP" then
          Some (parts !! 1%nat, parts !! 3%nat)
        else None in
      match fields with
      | None => []
      | Some (localAddress, pidText) =>
          match JS.parseInt_value pidText with
          | None => []
          | Some pid =>
              if negb (JS.isFinite pid) then []
              else
                match parseAddress (default "" localAddress) with
                | None => []
                | Some (address, port) =>
                    [mkPortProcess pid port protocol address None]
                end
          end
      end.

(** The body of [getWindowsProcesses] after the tool has answered. *)
Definition parseWindowsOutput (output : string) : list PortProcess :=
  concat (parseWindowsLine <$> JS.split_lines output).

(** The character class of the host group of the Unix address pattern:
    a word character, a dot, a star, a colon or a square bracket. *)
Definition is_host_char (c : ascii) : bool :=
  JS.is_word c || Ascii.eqb c "." || Ascii.eqb c "*" || Ascii.eqb c ":"
  || Ascii.eqb c "[" || Ascii.eqb c "]".

(** The rest of the Unix address pattern once the host group holds at least
    one character: the greedy group takes one more host character when the
    rest still matches; otherwise it ends here, in front of a colon followed
    by the longest non-empty run of digits. *)
Fixpoint host_port_rest (s : string) : option (string * string) :=
  match s with
  | EmptyString => None
  | String c s' =>
      match (if is_host_char c then host_port_rest s' else None) with
      | Some (host, digits) => Some (String c host, digits)
      | None =>
          if Ascii.eqb c ":" && negb (JS.is_empty (JS.take_digits s'))
          then Some (EmptyString, JS.take_digits s')
          else None
      end
  end.

(** The Unix address pattern tried at the start of [s]. *)
Definition host_port_here (s : string) : option (string * string) :=
  match s with
  | EmptyString => None
  | String c s' =>
      if is_host_char c then
        match host_port_rest s' with
        | Some (host, digits) => Some (String c host, digits)
        | None => None
        end
      else None
  end.

(** [line.match] of the Unix address pattern (one or more host characters,
    a colon, one or more digits), not anchored: the leftmost start that
    matches wins. *)
Fixpoint match_unix_address (s : string) : option (string * string) :=
  match host_port_here s with
  | Some m => Some m
  | None =>
      match s with
      | EmptyString => None
      | String _ s' => match_unix_address s'
      end
  end.

Definition starts_with_word (s : string) : bool :=
  match s with
  | String c _ => JS.is_word c
  | EmptyString => false
  end.

(** The alternation [TCP|UDP] tried at the start of [s], letter case ignored,
    followed by a word boundary; the result is the matched text. *)
Definition protocol_here (s : string) : option string :=
  match s with
  | String a (String b (String c rest)) =>
      let m := String a (String b (String c EmptyString)) in
      let u := JS.toUpperCase m in
      if (String.eqb u "TCP" || String.eqb u "UDP") && negb (starts_with_word rest)
      then Some m else None
  | _ => None
  end.

(** [line.match] of the protocol pattern (word boundary, [TCP|UDP], word
    boundary, flag [i]): [prev_word] says that the character in front of
    [s] is a word character, in which case no match can start here. *)
Fixpoint match_protocol (prev_word : bool) (s : string) : option string :=
  match s with
  | EmptyString => None
  | String c s' =>
      match (if prev_word then None else protocol_here s) with
      | Some m => Some m
      | None => match_protocol (JS.is_word c) s'
      end
  end.

(** One iteration of the loop of [getUnixProcesses]. *)
Definition parseUnixLine (line : string) : list PortProcess :=
  if JS.is_empty (JS.trim line) then []
  else
    let protocol :=
      match match_protocol false line with
      | Some m => JS.toUpperCase m
      | None => "TCP"
      end in
    let parts := JS.split_ws (JS.trim line) in
    let command := parts !! 0%nat in
    match JS.parseInt_value (parts !! 1%nat) with
    | None => []
    | Some pid =>
        if negb (JS.isFinite pid) then []
        else
          match match_unix_address line with
          | None => []
          | Some (host, digits) =>
              let address := strip_brackets host in
              match JS.parseInt digits with
              | Some port => [mkPortProcess pid port protocol address command]
              | None => []
              end
          end
    end.

(** The body of [getUnixProcesses] after the output has been obtained:
    [output.split(...).slice(1)] and the loop. *)
Definition parseUnixOutput (output : string) : list PortProcess :=
  concat (parseUnixLine <$> tail (JS.split_lines output)).

(** [String(x ?? '')] for a string, [undefined] or [null] *)
Definition string_or_empty (x : option string) : string := default "" x.

(** An entry of the process table as [find-process] returns it. *)
Record ProcessInfo := mkProcessInfo {
  cmd : option string;
  name : option string
}.

(** [detail.cmd ?? detail.name ?? ''] *)
Definition detail_command (detail : ProcessInfo) : string :=
  match cmd detail with
  | Some c => c
  | None => default "" (name detail)
  end.

(** Truthiness of an optional string: [if (item.command)] *)
Definition truthy (c : option string) : bool :=
  match c with
  | Some s => negb (JS.is_empty s)
  | None => false
  end.

(** The comparator given to [Array.prototype.sort]. *)
Definition compareProcesses (a b : PortProcess) : Z :=
  if port a =? port b then pid a - pid b else port a - port b.

(** [Array.prototype.sort] is a stable sort; with this comparator its result
    is the stable insertion of the elements from left to right. *)
Fixpoint sort_insert (x : PortProcess) (l : list PortProcess) : list PortProcess :=
  match l with
  | [] => [x]
  | y :: l' => if compareProcesses x y <? 0 then x :: l else y :: sort_insert x l'
  end.

Definition sortProcesses (l : list PortProcess) : list PortProcess :=
  fold_left (λ acc x, sort_insert x acc) l [].

(** [new Set(xs)] spread into an array: the distinct elements in the order
    of their first occurrence. *)
Fixpoint distinct_from (seen : gset Z) (xs : list Z) : list Z :=
  match xs with
  | [] => []
  | x :: xs' =>
      if decide (x ∈ seen) then distinct_from seen xs'
      else x :: distinct_from ({[x]} ∪ seen) xs'
  end.

Definition distinct (xs : list Z) : list Z := distinct_from ∅ xs.

(** The outcome of a termination by port. *)
Record TerminationOutcome := mkOutcome {
  success : list PortProcess;
  failed : list (PortProcess * Thrown)
}.

(** [`taskkill /PID ${pid} /T /F`] *)
Definition taskkill_command (pid : Z) : string :=
  "taskkill /PID " +:+ pretty pid +:+ " /T /F".

Definition lsof_command : string := "lsof -iTCP -sTCP:LISTEN -P -n".
Definition netstat_command : string := "netstat -ano".

(** [makeKey] of the watch command *)
Definition makeKey (proc : PortProcess) : string :=
  protocol proc +:+ ":" +:+ pretty (port proc) +:+ ":" +:+ pretty (pid proc).

(** [Array.prototype.join(' ')] *)
Fixpoint join_space (pieces : list string) : string :=
  match pieces with
  | [] => ""
  | [p] => p
  | p :: ps => p +:+ " " +:+ join_space ps
  end.

Definition formatProcess (processInfo : PortProcess) : string :=
  let pieces :=
    [ protocol processInfo +:+ "/" +:+ pretty (port processInfo);
      "pid:" +:+ pretty (pid processInfo);
      "addr:" +:+ address processInfo ] in
  join_space
    (if truthy (command processInfo)
     then pieces ++ [default "" (command processInfo)]
     else pieces).

(** [base.map(...)] of [enrichProcesses]: records that carry a command pass
    through; the others get what the map of details holds for their pid. *)
Definition enrichItem (pidDetails : gmap Z string) (item : PortProcess) : PortProcess :=
  if truthy (command item) then item
  else mkPortProcess (pid item) (port item) (protocol item) (address item)
         (pidDetails !! pid item).

(** The continuation of one termination attempt of [killByPort], run when
    the attempt has settled: one push on [success] or on [failed]. *)
Definition settleAttempt (out : TerminationOutcome)
    (attempt : PortProcess * Settled unit) : TerminationOutcome :=
  match attempt.2 with
  | Ok _ => mkOutcome (success out ++ [attempt.1]) (failed out)
  | Throw error => mkOutcome (success out) (failed out ++ [(attempt.1, error)])
  end.

(** The filter options of the watch command. *)
Record WatchOptions := mkWatchOptions {
  opt_port : option Z;
  opt_portRange : option (Z * Z)
}.

(** One entry line of a render, with its mark. *)
Definition entryLine (isNew : bool) (proc : PortProcess) : string :=
  (if isNew then "+" else " ") +:+ " " +:+ formatProcess proc.

(** The body of the [forEach] of [renderOnce], on the pair of the keys of
    this render and the lines printed so far. *)
Definition renderEntry (seenKeys : gset string)
    (st : gset string * list string) (proc : PortProcess) : gset string * list string :=
  let key := makeKey proc in
  let currentKeys := {[key]} ∪ st.1 in
  let isNew := negb (bool_decide (key ∈ seenKeys)) in
  (currentKeys, st.2 ++ [entryLine isNew proc]).

(** What a render leaves: the lines written on the console (the banner,
    which carries the wall clock, is left out) and the remembered keys. *)
Record Rendered := mkRendered {
  printed : list string;
  remembered : gset string
}.

(** [renderOnce] once [fetchProcesses] has settled. *)
Definition renderFetched (seenKeys : gset string)
    (fetched : Settled (list PortProcess)) : Rendered :=
  match fetched with
  | Ok processes =>
      let '(currentKeys, lines) :=
        if (length processes =? 0)%nat
        then (∅, ["No matching listening processes found."])
        else fold_left (renderEntry seenKeys) processes (∅, []) in
      (* seenKeys.clear(); currentKeys.forEach(key => seenKeys.add(key)) *)
      mkRendered lines (currentKeys ∪ ∅)
  | Throw error => mkRendered [message error] seenKeys
  end.

(** ** The operations, over an operating system

    [OS] is the state of the machine.  Every call of a system facility reads
    and may change it, so two discoveries need not see the same listeners. *)

Section World.
Context {OS : Type}.

(** An asynchronous computation: from the state of the machine to the
    value its promise settles with and the state it leaves. *)
Definition Async (A : Type) : Type := OS → Settled A * OS.

Definition ret {A} (a : A) : Async A := λ os, (Ok a, os).

Definition throw {A} (e : Thrown) : Async A := λ os, (Throw e, os).

Definition bind {A B} (m : Async A) (k : A → Async B) : Async B :=
  λ os, match m os with
        | (Ok a, os1) => k a os1
        | (Throw e, os1) => (Throw e, os1)
        end.

Definition try_catch {A} (m : Async A) (handler : Thrown → Async A) : Async A :=
  λ os, match m os with
        | (Ok a, os1) => (Ok a, os1)
        | (Throw e, os1) => handler e os1
        end.

Local Notation "x ← 'await' m ; k" := (bind m (λ x, k))
  (at level 20, m at level 100, k at level 200, only parsing).

(** [process.platform === 'win32'] *)
Variable win32 : bool.
(** [execAsync(command)], settled with the captured standard output. *)
Variable execAsync : string → Async string.
(** [findProcess('pid', pid)] *)
Variable findProcess : Z → Async (list ProcessInfo).
(** [process.kill(pid, 'SIGTERM')] *)
Variable process_kill : Z → Async unit.
(** The order in which the termination attempts of one [killByPort]
    settle, given in the order they were started. *)
Variable settle_order :
  list (PortProcess * Settled unit) → list (PortProcess * Settled unit).

Definition runCommand (command : string) : Async string :=
  stdout ← await execAsync command; ret stdout.

(** The [catch] clause of [getUnixProcesses]. *)
Definition recoverListing (error : Thrown) : Async string :=
  match is_Error error, stdout_prop error with
  | true, Some out => ret (string_or_empty out)
  | _, _ => throw error
  end.

Definition getUnixProcesses : Async (list PortProcess) :=
  output ← await try_catch (runCommand lsof_command) recoverListing;
  ret (parseUnixOutput output).

Definition getWindowsProcesses : Async (list PortProcess) :=
  output ← await runCommand netstat_command;
  ret (parseWindowsOutput output).

(** The callback of [enrichProcesses] for one pid, on the shared map
    [pidDetails]: the [try] block, then the [finally] block, which runs
    whether the lookup resolved or rejected. *)
Definition resolvePid (pid : Z) (pidDetails : gmap Z string)
    : OS → Settled unit * gmap Z string * OS :=
  λ os,
    let '(found, os1) := findProcess pid os in
    let after_try :=
      match found with
      | Ok (detail :: _) => <[pid := detail_command detail]> pidDetails
      | _ => pidDetails
      end in
    let after_finally := <[pid := ""]> after_try in
    (match found with Ok _ => Ok tt | Throw e => Throw e end, after_finally, os1).

(** [Promise.all(pids.map(...))]: every callback runs; the whole rejects
    with the first rejection, and resolves when none rejects. *)
Fixpoint resolveAll (pids : list Z) (pidDetails : gmap Z string)
    : OS → Settled unit * gmap Z string * OS :=
  λ os,
    match pids with
    | [] => (Ok tt, pidDetails, os)
    | pid :: rest =>
        let '(r, details1, os1) := resolvePid pid pidDetails os in
        let '(rs, details2, os2) := resolveAll rest details1 os1 in
        (match r with Ok _ => rs | Throw e => Throw e end, details2, os2)
    end.

Definition enrichProcesses (base : list PortProcess) : Async (list PortProcess) :=
  λ os,
    let pids := distinct (pid <$> base) in
    let '(r, pidDetails, os1) := resolveAll pids ∅ os in
    match r with
    | Ok _ => (Ok (enrichItem pidDetails <$> base), os1)
    | Throw e => (Throw e, os1)
    end.

Definition listListeningProcesses : Async (list PortProcess) :=
  base ← await (if win32 then getWindowsProcesses else getUnixProcesses);
  enriched ← await enrichProcesses base;
  ret (sortProcesses enriched).

Definition filterByPort (p : Z) : Async (list PortProcess) :=
  processes ← await listListeningProcesses;
  ret (filter (λ item, port item = p) processes).

Definition filterByPortRange (minPort maxPort : Z) : Async (list PortProcess) :=
  if minPort >? maxPort then ret []
  else
    processes ← await listListeningProcesses;
    ret (filter (λ item, minPort ≤ port item ∧ port item ≤ maxPort) processes).

Definition terminateProcess (pid : Z) : Async unit :=
  if win32 then
    _ ← await execAsync (taskkill_command pid); ret tt
  else
    try_catch (process_kill pid)
      (λ error, if bool_decide (code error = Some "ESRCH") then ret tt
                else throw error).

(** [matches.map(async ...)] up to the [await]: the attempts are started
    one after the other; each is paired with what it settles with. *)
Fixpoint startAttempts (matches : list PortProcess)
    : OS → list (PortProcess * Settled unit) * OS :=
  λ os,
    match matches with
    | [] => ([], os)
    | processInfo :: rest =>
        let '(r, os1) := terminateProcess (pid processInfo) os in
        let '(attempts, os2) := startAttempts rest os1 in
        ((processInfo, r) :: attempts, os2)
    end.

Definition killByPort (p : Z) : Async TerminationOutcome :=
  matches ← await filterByPort p;
  λ os,
    let '(attempts, os1) := startAttempts matches os in
    (Ok (fold_left settleAttempt (settle_order attempts) (mkOutcome [] [])), os1).

Definition killByPid (pid : Z) : Async unit :=
  _ ← await terminateProcess pid; ret tt.

(** [fetchProcesses] of the watch command *)
Definition fetchProcesses (options : WatchOptions) : Async (list PortProcess) :=
  match opt_port options, opt_portRange options with
  | Some p, _ => filterByPort p
  | None, Some (min, max) => filterByPortRange min max
  | None, None => listListeningProcesses
  end.

(** [renderOnce] of the watch command: the [catch] clause absorbs a failed
    read, so a render always completes. *)
Definition renderOnce (options : WatchOptions) (seenKeys : gset string)
    : OS → Rendered * OS :=
  λ os,
    let '(fetched, os1) := fetchProcesses options os in
    (renderFetched seenKeys fetched, os1).

End World.

(** ** A small machine for the worked examples

    The state is the list of live process ids.  The listing tool prints three
    listeners, two of them on port 3000; the process table knows pid 4821;
    a signal to pid 551 is refused, a signal to a dead pid reports ESRCH. *)

Definition LF : string := String "010" "".

Definition demo_listing : string :=
  "COMMAND PID USER FD TYPE DEVICE SIZE/OFF NODE NAME" +:+ LF +:+
  "redis 9000 app 6u IPv4 0x2 0t0 TCP 127.0.0.1:6379 (LISTEN)" +:+ LF +:+
  "node 4821 app 23u IPv4 0x1 0t0 TCP *:3000 (LISTEN)" +:+ LF +:+
  "nginx 551 root 7u IPv6 0x3 0t0 TCP [::1]:3000 (LISTEN)" +:+ LF.

Definition demo_error (c : string) : Thrown :=
  mkThrown true (Some c) None ("kill " +:+ c).

Definition demo_exec (command : string) : list Z → Settled string * list Z :=
  λ os,
    if String.eqb command lsof_command then (Ok demo_listing, os)
    else (Throw (mkThrown true (Some "127") (Some (Some "")) "not found"), os).

Definition demo_findProcess (pid : Z) : list Z → Settled (list ProcessInfo) * list Z :=
  λ os,
    if pid =? 4821 then (Ok [mkProcessInfo (Some "node server.js") (Some "node")], os)
    else (Ok [], os).

Definition demo_kill (pid : Z) : list Z → Settled unit * list Z :=
  λ os,
    if pid =? 551 then (Throw (demo_error "EPERM"), os)
    else if bool_decide (pid ∈ os) then (Ok tt, filter (λ q, q ≠ pid) os)
    else (Throw (demo_error "ESRCH"), os).

Definition demo_order
    (attempts : list (PortProcess * Settled unit)) : list (PortProcess * Settled unit) :=
  attempts.

Definition demo_os : list Z := [551; 4821; 9000].

(** The listeners of port 3000 on the small machine, in listing order. *)
Definition demo_matches : list PortProcess :=
  [mkPortProcess 551 3000 "TCP" "::1" (Some "nginx");
   mkPortProcess 4821 3000 "TCP" "*" (Some "node")].

(** A process table whose lookups reject. *)
Definition failing_findProcess (pid : Z) : list Z → Settled (list ProcessInfo) * list Z :=
  λ os, (Throw (demo_error "EAGAIN"), os).

(** A listing tool that prints two lines and then exits with status 1. *)
Definition partial_failure : Thrown :=
  mkThrown true (Some "1")
    (Some (Some ("COMMAND PID" +:+ LF +:+ "node 4821 app 23u IPv4 0x1 0t0 TCP *:3000 (LISTEN)")))
    "Command failed: lsof".

Definition partial_exec (command : string) : unit → Settled string * unit :=
  λ os, (Throw partial_failure, os).

(** A listing tool that exits with status 1 and prints nothing, as [lsof]
    does when no socket matches. *)
Definition silent_failure : Thrown :=
  mkThrown true (Some "1") (Some (Some "")) "Command failed: lsof".

Definition silent_exec (command : string) : unit → Settled string * unit :=
  λ os, (Throw silent_failure, os).

(** ** Vocabulary of the specification *)

(** The order of the listings: by port, then by process id. *)
Definition le_port_pid (a b : PortProcess) : Prop :=
  port a < port b ∨ (port a = port b ∧ pid a ≤ pid b).

Global Instance le_port_pid_dec a b : Decision (le_port_pid a b).
Proof. unfold le_port_pid. apply _. Defined.

(** The standard output captured with a failed run of a tool. *)
Definition captured_stdout (e : Thrown) : string :=
  match stdout_prop e with
  | Some (Some out) => out
  | _ => ""
  end.

(** The tool invocation failed without producing any capturable output. *)
Definition failed_without_output (ran : Settled string) : Prop :=
  match ran with
  | Throw e => captured_stdout e = ""
  | Ok _ => False
  end.

(** The call propagates a fatal error. *)
Definition propagates {A} (r : Settled A) : Prop :=
  match r with
  | Throw _ => True
  | Ok _ => False
  end.

(** The promise resolved (it did not reject). *)
Definition resolved {A} (r : Settled A) : bool :=
  match r with
  | Ok _ => true
  | Throw _ => false
  end.

(** Two records agree on every field except [command]. *)
Definition same_listener (a b : PortProcess) : Prop :=
  pid a = pid b ∧ port a = port b ∧ protocol a = protocol b ∧ address a = address b.

(** What [enrichItem] does once the map holds the empty string for the
    pid of the record. *)
Definition blankCommand (item : PortProcess) : PortProcess :=
  if truthy (command item) then item
  else mkPortProcess (pid item) (port item) (protocol item) (address item) (Some "").

(** Every character of the string satisfies the test. *)
Fixpoint all_chars (P : ascii → bool) (s : string) : bool :=
  match s with
  | EmptyString => true
  | String c s' => P c && all_chars P s'
  end.

(** A decimal numeral: one or more digits and nothing else. *)
Definition is_decimal (s : string) : bool :=
  negb (JS.is_empty s) && JS.all_digits s.

(** The number a decimal numeral denotes. *)
Definition decimal_value (s : string) : Z := JS.decimal_from 0 s.

(** The columns of a line: its fields between runs of white space. *)
Definition columns (line : string) : list string := JS.split_ws (JS.trim line).

(** The line contains an address:port pair: somewhere in it, one or more
    host characters, a colon, and a decimal numeral. *)
Definition contains_host_port (line : string) : Prop :=
  ∃ pre host digits post,
    line = pre +:+ host +:+ ":" +:+ digits +:+ post
    ∧ JS.is_empty host = false
    ∧ all_chars is_host_char host = true
    ∧ is_decimal digits = true.

(** The protocol a Unix line is given: the first whole word TCP or UDP in
    it, in any letter case, and TCP when there is none. *)
Definition unix_protocol (line : string) : string :=
  match match_protocol false line with
  | Some m => JS.toUpperCase m
  | None => "TCP"
  end.

(** The integers every double holds exactly: those below 2^53 in
    magnitude.  Process ids and ports are far below. *)
Definition exact_integer (n : Z) : Prop := Z.abs n < 2 ^ 53.

(** The host without its enclosing brackets: what stands between an opening
    and a closing square bracket when the host begins with the one and ends
    with the other, and the host itself otherwise. *)
Definition unbracketed (host address : string) : Prop :=
  (∃ inner, host = "[" +:+ inner +:+ "]" ∧ address = inner)
  ∨ ((∀ inner, host ≠ "[" +:+ inner +:+ "]") ∧ address = host).

Definition starts_with_digit (s : string) : bool :=
  match s with
  | String c _ => JS.is_digit c
  | EmptyString => false
  end.

(** The token begins with a numeral that denotes [n]: an optional sign, a
    decimal numeral, and a rest that does not go on with a digit. *)
Definition begins_with_numeral (token : string) (n : Z) : Prop :=
  ∃ sign digits rest,
    token = sign +:+ digits +:+ rest
    ∧ ((sign = "" ∧ n = decimal_value digits)
       ∨ (sign = "+" ∧ n = decimal_value digits)
       ∨ (sign = "-" ∧ n = - decimal_value digits))
    ∧ is_decimal digits = true
    ∧ starts_with_digit rest = false.

(** ** Validation of the command line ([src/utils/validation.ts]) *)

(** [new Error(message)] *)
Definition new_Error (msg : string) : Thrown := mkThrown true None None msg.

Definition parsePort (value : string) : Settled Z :=
  match JS.parseInt value with
  | Some port =>
      if negb (JS.isFinite port) || (port <=? 0) || (port >? 65535)
      then Throw (new_Error ("Invalid port: " +:+ value))
      else Ok port
  | None => Throw (new_Error ("Invalid port: " +:+ value))
  end.

Definition parseInterval (value : string) : Settled Z :=
  match JS.parseInt value with
  | Some interval =>
      if negb (JS.isFinite interval) || (interval <=? 0)
      then Throw (new_Error ("Invalid interval (ms): " +:+ value))
      else Ok interval
  | None => Throw (new_Error ("Invalid interval (ms): " +:+ value))
  end.

(** The match of [parsePortRange] on the trimmed value: digits, white space,
    a dash, white space, digits, and nothing else.  The groups are the two
    runs of digits; each repetition is greedy and what follows it cannot
    start with a character it takes, so there is one way to match. *)
Definition match_port_range (s : string) : option (string * string) :=
  let first := JS.take_digits s in
  if JS.is_empty first then None
  else
    match JS.trimStart (JS.skip_digits s) with
    | String "-" rest =>
        let second := JS.trimStart rest in
        if negb (JS.is_empty second) && JS.all_digits second
        then Some (first, second)
        else None
    | _ => None
    end.

(** [parsePortRange]; the range is the pair of [min] and [max]. *)
Definition parsePortRange (value : string) : Settled (Z * Z) :=
  let trimmed := JS.trim value in
  match match_port_range trimmed with
  | None =>
      Throw (new_Error ("Invalid port range: " +:+ value
                        +:+ ". Expected format start-end."))
  | Some (first, second) =>
      match parsePort first with
      | Throw e => Throw e
      | Ok min =>
          match parsePort second with
          | Throw e => Throw e
          | Ok max =>
              if min >? max
              then Throw (new_Error ("Invalid port range: start " +:+ pretty min
                                     +:+ " is greater than end " +:+ pretty max
                                     +:+ "."))
              else Ok (min, max)
          end
      end
  end.

(** [parseFormat]; an [OutputFormat] is one of the strings text, json, csv. *)
Definition parseFormat (value : string) : Settled string :=
  let normalized := JS.toLowerCase (JS.trim value) in
  if String.eqb normalized "text" || String.eqb normalized "json"
     || String.eqb normalized "csv"
  then Ok normalized
  else Throw (new_Error ("Invalid format: " +:+ value
                         +:+ ". Expected one of text, json, or csv.")).

(** ** Rendering ([src/utils/output.ts]) *)

(** The double quote character. *)
Definition DQ : ascii := "034"%char.

(** The [replace] of [escapeCsv]: every double quote is doubled. *)
Fixpoint double_quotes (value : string) : string :=
  match value with
  | EmptyString => EmptyString
  | String c rest =>
      if Ascii.eqb c DQ then String DQ (String DQ (double_quotes rest))
      else String c (double_quotes rest)
  end.

(** The character class of [escapeCsv]: a double quote, a comma, a line feed. *)
Definition is_csv_special (c : ascii) : bool :=
  Ascii.eqb c DQ || Ascii.eqb c "," || Ascii.eqb c "010".

(** [escapeCsv] on the string its argument is converted to. *)
Definition escapeCsv (value : string) : string :=
  if JS.has_char is_csv_special value
  then String DQ (double_quotes value +:+ String DQ EmptyString)
  else value.

Definition csvHeader : string := "protocol,port,pid,address,command".

(** One row of [renderCsv]. *)
Definition csvRow (item : PortProcess) : string :=
  JS.join ","
    [ escapeCsv (protocol item);
      escapeCsv (pretty (port item));
      escapeCsv (pretty (pid item));
      escapeCsv (address item);
      escapeCsv (default "" (command item)) ].

Definition renderCsv (processes : list PortProcess) : string :=
  JS.join LF (csvHeader :: (csvRow <$> processes)).

(** [renderProcesses]; [JSON.stringify(processes, null, 2)] is a parameter. *)
Definition renderProcesses (stringify : list PortProcess → string)
    (processes : list PortProcess) (format : string) : string :=
  if String.eqb format "json" then stringify processes
  else if String.eqb format "csv" then renderCsv processes
  else if (length processes =? 0)%nat then "No matching listening processes found."
  else JS.join LF (formatProcess <$> processes).

(** [content.endsWith('\n') ? content : `${content}\n`] *)
Definition finalContent (content : string) : string :=
  if JS.endsWith_char content "010" then content else content +:+ LF.

(** ** The interactive command ([src/commands/interactive.ts]) *)

(** The [forEach] that fills [portMap]: the list of the port is fetched (or
    created), the record is pushed on it, and the list is stored again. *)
Definition groupByPort (processes : list PortProcess) : gmap Z (list PortProcess) :=
  fold_left
    (λ (portMap : gmap Z (list PortProcess)) processInfo,
       <[port processInfo := default [] (portMap !! port processInfo) ++ [processInfo]]>
         portMap)
    processes ∅.

(** [matches.find((item) => item.pid === selectedPid)] *)
Definition findByPid (matches : list PortProcess) (selectedPid : Z) : option PortProcess :=
  head (filter (λ item, pid item = selectedPid) matches).

(** ** The watch loop ([watch] command of [src/commands/list.ts]) *)

(** A line written on the console: by [console.log] or by [console.error]. *)
Inductive Line :=
  | Log (text : string)
  | Err (text : string).

Global Instance Line_eq_dec : EqDecision Line.
Proof. solve_decision. Defined.

(** The variables the closures of the watch action share, and what the
    runtime holds for them: [timer] says that the variable holds a handle,
    [armed] that the runtime holds a timeout that has not fired yet,
    [listening] that [onData] is attached to the raw standard input. *)
Record WatchState := mkWatchState {
  stopped : bool;
  pending : bool;
  timer : bool;
  armed : bool;
  listening : bool;
  seen : gset string;
  console : list Line
}.

Definition stopLine : Line := Log (LF +:+ "Watch stopped.").

(** [stopWatching]; [stdinTTY] is [stdin.isTTY]. *)
Definition stopWatching (stdinTTY : bool) (st : WatchState) : WatchState :=
  if stopped st then st
  else
    let cleared := timer st in
    mkWatchState true (pending st)
      (if cleared then false else timer st)
      (if cleared then false else armed st)
      (if stdinTTY then false else listening st)
      (seen st)
      (console st ++ [stopLine]).

(** [onData]: the first byte of the buffer decides (3 is Ctrl+C, 17 is
    Ctrl+Q); an empty buffer has no first byte. *)
Definition onData (stdinTTY : bool) (st : WatchState) (buffer : list Z) : WatchState :=
  match buffer !! 0%nat with
  | Some byte => if (byte =? 3) || (byte =? 17) then stopWatching stdinTTY st else st
  | None => st
  end.

(** [schedule] up to its [await]: the two guards, then [pending = true]. *)
Definition scheduleBegin (st : WatchState) : WatchState :=
  if stopped st then st
  else if pending st then st
  else mkWatchState (stopped st) true (timer st) (armed st) (listening st)
         (seen st) (console st).

(** [renderOnce] from the moment the read has settled, and [schedule] after
    its [await]: the render writes its lines and replaces the remembered
    keys, [pending] is reset, and a timeout is set unless the loop stopped. *)
Definition scheduleEnd (st : WatchState) (fetched : Settled (list PortProcess))
    : WatchState :=
  let rendered := renderFetched (seen st) fetched in
  let lines :=
    match fetched with
    | Ok _ => Log <$> printed rendered
    | Throw _ => Err <$> printed rendered
    end in
  mkWatchState (stopped st) false
    (if stopped st then timer st else true)
    (if stopped st then armed st else true)
    (listening st)
    (remembered rendered)
    (console st ++ lines).

(** What the event loop can deliver to the watch action. *)
Inductive WatchEvent :=
  | KeyData (buffer : list Z)
  | TimerFires
  | RenderDone (fetched : Settled (list PortProcess)).

(** One turn of the event loop: a key buffer reaches [onData] while it is
    attached, a timeout fires while it is armed and calls [schedule], a
    render completes while one is in flight.  [None]: the event cannot
    happen in this state. *)
Definition watchStep (stdinTTY : bool) (st : WatchState) (ev : WatchEvent)
    : option WatchState :=
  match ev with
  | KeyData buffer =>
      if listening st then Some (onData stdinTTY st buffer) else None
  | TimerFires =>
      if armed st
      then Some (scheduleBegin
                   (mkWatchState (stopped st) (pending st) (timer st) false
                      (listening st) (seen st) (console st)))
      else None
  | RenderDone fetched =>
      if pending st then Some (scheduleEnd st fetched) else None
  end.

Fixpoint watchRun (stdinTTY : bool) (st : WatchState) (events : list WatchEvent)
    : option WatchState :=
  match events with
  | [] => Some st
  | ev :: rest =>
      match watchStep stdinTTY st ev with
      | Some st' => watchRun stdinTTY st' rest
      | None => None
      end
  end.

(** The state in which the action enters the loop: the variables as they
    are initialised, [onData] attached when the input is a terminal, and
    the first call of [schedule] made. *)
Definition watchStart (stdinTTY : bool) : WatchState :=
  scheduleBegin (mkWatchState false false false false stdinTTY ∅ []).

(** ** The commands, over an operating system *)

(** What a command leaves: the lines on the console and [process.exitCode]. *)
Record CommandResult := mkCommandResult {
  output : list Line;
  exitCode : option Z
}.

Section Commands.
Context {OS : Type}.

Local Notation "x ← 'await' m ; k" := (bind m (λ x, k))
  (at level 20, m at level 100, k at level 200, only parsing).

Variable win32 : bool.
Variable execAsync : string → Async (OS:=OS) string.
Variable findProcess : Z → Async (OS:=OS) (list ProcessInfo).
Variable process_kill : Z → Async (OS:=OS) unit.
Variable settle_order :
  list (PortProcess * Settled unit) → list (PortProcess * Settled unit).
(** [writeFile(destination, content, { encoding: 'utf8' })] *)
Variable writeFile : string → string → Async (OS:=OS) unit.
(** The confirmation prompt of the kill command, given its message. *)
Variable confirmPrompt : string → Async (OS:=OS) bool.
(** [JSON.stringify(processes, null, 2)] *)
Variable stringify : list PortProcess → string.

(** [outputProcesses]; the value is what it writes on the console. *)
Definition outputProcesses (processes : list PortProcess) (format : string)
    (destination : option string) : Async (OS:=OS) (list Line) :=
  let content := renderProcesses stringify processes format in
  if truthy destination then
    _ ← await writeFile (default "" destination) (finalContent content);
    ret [Log ("Saved output to " +:+ default "" destination)]
  else ret [Log content].

(** The [catch] clause of the command actions. *)
Definition failCommand (lines : list Line) (error : Thrown) : CommandResult :=
  mkCommandResult (lines ++ [Err (message error)]) (Some 1).

(** The action of the inspect command. *)
Definition inspectCommand (portValue : string) (format : option string)
    (destination : option string) : OS → CommandResult * OS :=
  λ os,
    match parsePort portValue with
    | Throw error => (failCommand [] error, os)
    | Ok p =>
        match filterByPort win32 execAsync findProcess p os with
        | (Throw error, os1) => (failCommand [] error, os1)
        | (Ok matches, os1) =>
            match outputProcesses matches (default "text" format) destination os1 with
            | (Throw error, os2) => (failCommand [] error, os2)
            | (Ok lines, os2) => (mkCommandResult lines None, os2)
            end
        end
    end.

(** The lines of the kill command for an outcome. *)
Definition reportOutcome (out : TerminationOutcome) : list Line :=
  ((λ item, Log ("Terminated " +:+ formatProcess item)) <$> success out)
  ++ ((λ entry : PortProcess * Thrown,
         Err ("Failed to terminate " +:+ formatProcess entry.1 +:+ " -> "
              +:+ message entry.2)) <$> failed out).

(** The kill command from the call of [killByPort] on. *)
Definition killConfirmed (p : Z) (lines : list Line) : OS → CommandResult * OS :=
  λ os,
    match killByPort win32 execAsync findProcess process_kill settle_order p os with
    | (Throw error, os1) => (failCommand lines error, os1)
    | (Ok out, os1) =>
        (mkCommandResult (lines ++ reportOutcome out)
           (if (0 <? length (failed out))%nat then Some 1 else None), os1)
    end.

(** The action of the kill command; [force] is [options.force]. *)
Definition killCommand (portValue : string) (force : bool) : OS → CommandResult * OS :=
  λ os,
    match parsePort portValue with
    | Throw error => (failCommand [] error, os)
    | Ok p =>
        match filterByPort win32 execAsync findProcess p os with
        | (Throw error, os1) => (failCommand [] error, os1)
        | (Ok matches, os1) =>
            if (length matches =? 0)%nat then
              (mkCommandResult
                 [Log ("No listening processes found on port " +:+ pretty p +:+ ".")]
                 None, os1)
            else if force then killConfirmed p [] os1
            else
              let preview :=
                Log "The following processes will be terminated:"
                :: ((λ item, Log (" - " +:+ formatProcess item)) <$> matches) in
              match confirmPrompt
                      ("Proceed with terminating " +:+ pretty (Z.of_nat (length matches))
                       +:+ " process(es) on port " +:+ pretty p +:+ "?") os1 with
              | (Throw error, os2) => (failCommand preview error, os2)
              | (Ok false, os2) =>
                  (mkCommandResult (preview ++ [Log "Termination aborted."]) None, os2)
              | (Ok true, os2) => killConfirmed p preview os2
              end
        end
    end.

End Commands.

(** The entry of [failed] a settled attempt gives, if it rejected. *)
Definition attemptError (attempt : PortProcess * Settled unit)
    : option (PortProcess * Thrown) :=
  match attempt.2 with
  | Ok _ => None
  | Throw error => Some (attempt.1, error)
  end.

(** A reference reader of a CSV field, to state that [escapeCsv] loses
    nothing: in a quoted field the quote that follows a quote is dropped. *)
Fixpoint undouble_quotes (s : string) : string :=
  match s with
  | EmptyString => EmptyString
  | String a t =>
      if Ascii.eqb a DQ then
        match t with
        | String _ r => String DQ (undouble_quotes r)
        | EmptyString => String DQ EmptyString
        end
      else String a (undouble_quotes t)
  end.

Definition unescapeCsv (field : string) : string :=
  match field with
  | String a t => if Ascii.eqb a DQ then undouble_quotes (JS.drop_last t) else field
  | EmptyString => EmptyString
  end.

(** The string holds no colon. *)
Definition no_colon (s : string) : bool :=
  all_chars (λ c, negb (Ascii.eqb c ":")) s.

(** What holds of the watch loop at every moment: a timeout is armed only
    while the loop runs and no render is in flight, and then the variable
    [timer] holds its handle; once stopped, [onData] is detached; the loop
    is rendering, waiting for its timeout, or stopped; and the stop notice
    was written once if the loop stopped, and never otherwise. *)
Definition watch_invariant (st : WatchState) : Prop :=
  (armed st = true → stopped st = false ∧ pending st = false ∧ timer st = true)
  ∧ (stopped st = true → listening st = false)
  ∧ (pending st = true ∨ armed st = true ∨ stopped st = true)
  ∧ count_occ Line_eq_dec (console st) stopLine = (if stopped st then 1 else 0)%nat.

(** More of the small machine: the listing in the order it is returned, a
    process that listens on one port over two sockets, a file system that
    accepts every write, an operator who declines, and a process table over
    the machine without state. *)
Definition demo_sorted : list PortProcess :=
  [mkPortProcess 551 3000 "TCP" "::1" (Some "nginx");
   mkPortProcess 4821 3000 "TCP" "*" (Some "node");
   mkPortProcess 9000 6379 "TCP" "127.0.0.1" (Some "redis")].

Definition dual_listing : string :=
  "COMMAND PID USER FD TYPE DEVICE SIZE/OFF NODE NAME" +:+ LF +:+
  "node 4821 app 23u IPv6 0x1 0t0 TCP [::1]:3000 (LISTEN)" +:+ LF +:+
  "node 4821 app 24u IPv4 0x2 0t0 TCP 127.0.0.1:3000 (LISTEN)".

Definition dual_exec (command : string) : unit → Settled string * unit :=
  λ os, (Ok dual_listing, os).

Definition dual_sorted : list PortProcess :=
  [mkPortProcess 4821 3000 "TCP" "::1" (Some "node");
   mkPortProcess 4821 3000 "TCP" "127.0.0.1" (Some "node")].

Definition quiet_findProcess (pid : Z) : unit → Settled (list ProcessInfo) * unit :=
  λ os, (Ok [], os).

Definition demo_writeFile (path content : string) : list Z → Settled unit * list Z :=
  λ os, (Ok tt, os).

Definition demo_decline (question : string) : list Z → Settled bool * list Z :=
  λ os, (Ok false, os).

Definition demo_stringify (processes : list PortProcess) : string := "[]".

Definition demo_attempts : list (PortProcess * Settled unit) :=
  [(mkPortProcess 551 3000 "TCP" "::1" (Some "nginx"), Throw (demo_error "EPERM"));
   (mkPortProcess 4821 3000 "TCP" "*" (Some "node"), Ok tt)].

Definition demo_outcome : TerminationOutcome :=
  mkOutcome [mkPortProcess 4821 3000 "TCP" "*" (Some "node")]
    [(mkPortProcess 551 3000 "TCP" "::1" (Some "nginx"), demo_error "EPERM")].

(** ** Strings *)

Lemma append_cons c s t : String c s +:+ t = String c (s +:+ t).
Proof. reflexivity. Qed.

Lemma append_empty t : "" +:+ t = t.
Proof. reflexivity. Qed.

Lemma all_chars_append P s t :
  all_chars P (s +:+ t) = all_chars P s && all_chars P t.
Proof.
  induction s as [|c s IH]; [done|].
  rewrite append_cons. simpl. by rewrite IH, andb_assoc.
Qed.

Lemma all_chars_impl (P Q : ascii → bool) s :
  (∀ c, P c = true → Q c = true) → all_chars P s = true → all_chars Q s = true.
Proof.
  intros HPQ. induction s as [|c s IH]; simpl; [done|].
  intros [Hc Hs]%andb_true_iff. by rewrite (HPQ c Hc), IH.
Qed.

Lemma split_ws_from_cons in_sep s : ∃ t ts, JS.split_ws_from in_sep s = t :: ts.
Proof.
  revert in_sep. induction s as [|c s IH]; intros in_sep; simpl; [eauto|].
  destruct (JS.is_space c).
  - destruct in_sep; eauto.
  - destruct (IH false) as (t & ts & ->). simpl. eauto.
Qed.

(** No field of a split on white space contains white space. *)
Lemma split_ws_from_no_space in_sep s :
  Forall (λ t, all_chars (λ c, negb (JS.is_space c)) t = true)
    (JS.split_ws_from in_sep s).
Proof.
  revert in_sep. induction s as [|c s IH]; intros in_sep; simpl.
  - by repeat constructor.
  - destruct (JS.is_space c) eqn:Hc.
    + destruct in_sep; [apply IH|]. constructor; [done|apply IH].
    + specialize (IH false). destruct (JS.split_ws_from false s) as [|t ts]; simpl.
      * repeat constructor. simpl. by rewrite Hc.
      * inversion IH as [|? ? Ht Hts]; subst. constructor; [|done].
        simpl. by rewrite Hc, Ht.
Qed.

Lemma columns_no_space line t :
  t ∈ columns line → all_chars (λ c, negb (JS.is_space c)) t = true.
Proof.
  intros Ht. pose proof (split_ws_from_no_space false (JS.trim line)) as H.
  by eapply list.Forall_forall in H.
Qed.

(** The first field of a split starts like the string, as far as no white
    space is met. *)
Lemma split_ws_startsWith s p t ts :
  JS.split_ws s = t :: ts → all_chars (λ c, negb (JS.is_space c)) p = true →
  JS.startsWith s p = true → JS.startsWith t p = true.
Proof.
  unfold JS.split_ws. revert s t ts.
  induction p as [|a p IH]; intros s t ts Hsplit Hp Hs; [done|].
  destruct s as [|b s]; [done|]. simpl in Hs, Hp, Hsplit.
  apply andb_true_iff in Hs as [Hab Hs]. apply andb_true_iff in Hp as [Ha Hp].
  apply Ascii.eqb_eq in Hab as <-.
  apply negb_true_iff in Ha. rewrite Ha in Hsplit.
  destruct (split_ws_from_cons false s) as (t' & ts' & Hrest).
  rewrite Hrest in Hsplit. simpl in Hsplit. injection Hsplit as <- <-.
  simpl. rewrite Ascii.eqb_refl. simpl. by eapply IH.
Qed.

Lemma startsWith_toUpperCase s p :
  JS.startsWith s p = true →
  JS.startsWith (JS.toUpperCase s) (JS.toUpperCase p) = true.
Proof.
  revert s. induction p as [|a p IH]; intros s; [done|].
  destruct s as [|b s]; [done|]. simpl.
  intros [Hab Hs]%andb_true_iff. apply Ascii.eqb_eq in Hab as <-.
  by rewrite Ascii.eqb_refl, IH.
Qed.

(** A fact about one character, settled on each of the 256 characters. *)
Ltac by_ascii_cases c :=
  destruct c as [[] [] [] [] [] [] [] []]; by vm_compute.

Lemma is_digit_not_space c : JS.is_digit c = true → JS.is_space c = false.
Proof. by_ascii_cases c. Qed.

Lemma is_digit_not_sign c :
  JS.is_digit c = true → c ≠ "-"%char ∧ c ≠ "+"%char ∧ c ≠ ":"%char.
Proof. by_ascii_cases c. Qed.

Lemma is_line_terminator_space c :
  JS.is_line_terminator c = true → JS.is_space c = true.
Proof. by_ascii_cases c. Qed.

Lemma take_digits_all s : JS.all_digits s = true → JS.take_digits s = s.
Proof.
  induction s as [|c s IH]; simpl; [done|].
  intros [-> Hs]%andb_true_iff. by rewrite IH.
Qed.

Lemma take_digits_prefix s :
  JS.all_digits (JS.take_digits s) = true
  ∧ ∃ post, s = JS.take_digits s +:+ post.
Proof.
  induction s as [|c s [IH1 [post IH2]]]; simpl.
  - split; [done|]. by exists "".
  - destruct (JS.is_digit c) eqn:Hc; simpl.
    + rewrite Hc, IH1. split; [done|]. exists post.
      by rewrite append_cons, <- IH2.
    + split; [done|]. by eexists.
Qed.

Lemma take_digits_split s :
  ∃ post, s = JS.take_digits s +:+ post ∧ starts_with_digit post = false.
Proof.
  induction s as [|c s (post & IH & Hpost)]; simpl.
  - by exists "".
  - destruct (JS.is_digit c) eqn:Hc.
    + exists post. by rewrite append_cons, <- IH.
    + exists (String c s). by rewrite append_empty.
Qed.

Lemma take_digits_append digits rest :
  JS.all_digits digits = true → starts_with_digit rest = false →
  JS.take_digits (digits +:+ rest) = digits.
Proof.
  intros Hall Hrest. induction digits as [|c digits IH].
  - rewrite append_empty. destruct rest as [|c rest]; [done|].
    simpl in *. by rewrite Hrest.
  - simpl in Hall. apply andb_true_iff in Hall as [Hc Hall].
    rewrite append_cons. simpl. by rewrite Hc, IH.
Qed.

Lemma split_sign_digit c s :
  JS.is_digit c = true → JS.split_sign (String c s) = (1, String c s).
Proof. by_ascii_cases c. Qed.

(** The three ways a numeral starts: with a minus sign, with a plus sign,
    or without a sign. *)
Lemma split_sign_cases t :
  (∃ r, t = String "-" r ∧ JS.split_sign t = (-1, r))
  ∨ (∃ r, t = String "+" r ∧ JS.split_sign t = (1, r))
  ∨ JS.split_sign t = (1, t).
Proof.
  destruct t as [|c r]; [by right; right|].
  destruct c as [[] [] [] [] [] [] [] []];
    first [by right; right | by left; eexists | by right; left; eexists].
Qed.

Lemma trimStart_no_space t :
  all_chars (λ c, negb (JS.is_space c)) t = true → JS.trimStart t = t.
Proof.
  destruct t as [|c t]; [done|]. simpl.
  intros [Hc _]%andb_true_iff. apply negb_true_iff in Hc. by rewrite Hc.
Qed.

Lemma digit_value_range c : JS.is_digit c = true → 0 ≤ JS.digit_value c ≤ 9.
Proof.
  unfold JS.is_digit, JS.digit_value.
  intros [H1 H2]%andb_true_iff. apply N.leb_le in H1, H2. lia.
Qed.

Lemma decimal_from_nonneg acc s :
  0 ≤ acc → JS.all_digits s = true → 0 ≤ JS.decimal_from acc s.
Proof.
  revert acc. induction s as [|c s IH]; intros acc Hacc; simpl; [done|].
  intros [Hc Hs]%andb_true_iff. apply IH; [|done].
  pose proof (digit_value_range c Hc). lia.
Qed.

Lemma decimal_value_nonneg digits : is_decimal digits = true → 0 ≤ decimal_value digits.
Proof.
  intros [_ Hall]%andb_true_iff. by apply decimal_from_nonneg.
Qed.

(** ** Numbers *)

Lemma round_double_exact v : exact_integer v → JS.round_double v = v.
Proof.
  unfold exact_integer. intros Hv. unfold JS.round_double. cbv zeta.
  by rewrite (proj2 (Z.ltb_lt _ _) Hv).
Qed.

Lemma isFinite_exact v : exact_integer v → JS.isFinite v = true.
Proof.
  unfold exact_integer. intros Hv. unfold JS.isFinite, JS.infinity.
  apply Z.ltb_lt. assert (2 ^ 53 ≤ 2 ^ 1024) by lia. lia.
Qed.

Lemma isFinite_infinity : JS.isFinite JS.infinity = false.
Proof.
  unfold JS.isFinite. apply Z.ltb_ge. unfold JS.infinity.
  assert (0 < 2 ^ 1024) by (by apply Z.pow_pos_nonneg). lia.
Qed.

(** Above 2^53 the rounded number keeps the leading bit of the integer,
    unless it is an infinity. *)
Lemma round_double_large v :
  2 ^ 53 ≤ v →
  ∃ m, 2 ^ Z.log2 v ≤ m
       ∧ JS.round_double v = if m <? JS.infinity then m else JS.infinity.
Proof.
  intros Hv. unfold JS.round_double. cbv zeta.
  assert (0 < 2 ^ 53) by (by apply Z.pow_pos_nonneg).
  rewrite (Z.abs_eq v) by lia.
  rewrite (proj2 (Z.ltb_ge _ _) Hv).
  rewrite (Z.sgn_pos v), Z.mul_1_l by lia.
  eexists. split; [|reflexivity].
  assert (53 ≤ Z.log2 v) as Hlog.
  { rewrite <- (Z.log2_pow2 53) by lia. by apply Z.log2_le_mono. }
  set (e := Z.log2 v - 52).
  assert (0 < 2 ^ e) as He by (apply Z.pow_pos_nonneg; lia).
  assert (2 ^ Z.log2 v = 2 ^ 52 * 2 ^ e) as Hsplit.
  { rewrite <- Z.pow_add_r by lia. f_equal. lia. }
  assert (2 ^ 52 ≤ v / 2 ^ e) as Hq.
  { apply Z.div_le_lower_bound; [done|].
    rewrite Z.mul_comm, <- Hsplit. apply Z.log2_spec. lia. }
  rewrite Hsplit. destruct (_ || _); nia.
Qed.

Lemma round_double_nonneg v : 0 ≤ v → 0 ≤ JS.round_double v.
Proof.
  intros Hv. destruct (Z.lt_ge_cases v (2 ^ 53)) as [Hlt|Hge].
  - rewrite round_double_exact; [done|]. unfold exact_integer. lia.
  - destruct (round_double_large v Hge) as (m & Hm & ->).
    assert (0 < 2 ^ Z.log2 v) by (apply Z.pow_pos_nonneg; [lia|apply Z.log2_nonneg]).
    unfold JS.infinity. destruct (m <? 2 ^ 1024); [lia|].
    apply Z.pow_nonneg. lia.
Qed.

(** From 2^1024 on, an integer becomes [Infinity]. *)
Lemma round_double_overflow v : JS.infinity ≤ v → JS.round_double v = JS.infinity.
Proof.
  unfold JS.infinity at 1. intros Hv.
  assert (2 ^ 53 ≤ 2 ^ 1024) by lia.
  destruct (round_double_large v) as (m & Hm & ->); [lia|].
  assert (1024 ≤ Z.log2 v) as Hlog.
  { rewrite <- (Z.log2_pow2 1024) by lia. by apply Z.log2_le_mono. }
  assert (2 ^ 1024 ≤ 2 ^ Z.log2 v) by (apply Z.pow_le_mono_r; lia).
  unfold JS.infinity. by rewrite (proj2 (Z.ltb_ge _ _)) by lia.
Qed.

Lemma round_double_opp v : JS.round_double (- v) = - JS.round_double v.
Proof.
  unfold JS.round_double. cbv zeta. rewrite Z.abs_opp, Z.sgn_opp.
  destruct (Z.abs v <? 2 ^ 53); [done|]. lia.
Qed.

(** An integer of magnitude 2^1024 or more becomes a number that is not
    finite. *)
Lemma round_double_not_finite n :
  JS.infinity ≤ Z.abs n → JS.isFinite (JS.round_double n) = false.
Proof.
  intros Hn. destruct (Z.abs_spec n) as [[_ Habs]|[_ Habs]]; rewrite Habs in Hn.
  - by rewrite (round_double_overflow _ Hn), isFinite_infinity.
  - rewrite <- (Z.opp_involutive n), round_double_opp, (round_double_overflow _ Hn).
    unfold JS.isFinite. rewrite Z.abs_opp. apply isFinite_infinity.
Qed.

(** [parseInt] reads a decimal numeral as the double of the number it
    denotes. *)
Lemma parseInt_numeral s :
  is_decimal s = true → JS.parseInt s = Some (JS.round_double (decimal_value s)).
Proof.
  unfold is_decimal, JS.parseInt, decimal_value.
  intros [Hne Hall]%andb_true_iff. destruct s as [|c s]; [done|].
  pose proof (take_digits_all _ Hall) as Htake.
  simpl in Hall. apply andb_true_iff in Hall as [Hc Hs].
  cbn [JS.trimStart]. rewrite (is_digit_not_space c Hc), (split_sign_digit c s Hc).
  rewrite Htake. cbn [JS.is_empty]. do 2 f_equal. lia.
Qed.

(** A numeral below 2^53 is read as the number it denotes. *)
Lemma parseInt_decimal s :
  is_decimal s = true → exact_integer (decimal_value s) →
  JS.parseInt s = Some (decimal_value s).
Proof.
  intros Hs Hv. by rewrite (parseInt_numeral s Hs), round_double_exact.
Qed.

(** [parseInt] reads the numeral a token begins with, and ignores what
    follows it. *)
Lemma parseInt_begins token n :
  begins_with_numeral token n → JS.parseInt token = Some (JS.round_double n).
Proof.
  intros (sign & digits & rest & -> & Hsign & Hd & Hrest).
  apply andb_true_iff in Hd as [Hne Hall].
  pose proof (take_digits_append _ _ Hall Hrest) as Htake.
  destruct digits as [|d digits]; [done|]. clear Hne.
  pose proof Hall as Hall'. simpl in Hall'.
  apply andb_true_iff in Hall' as [Hdigit _].
  unfold JS.parseInt.
  destruct Hsign as [[-> ->]|[[-> ->]|[-> ->]]].
  - rewrite append_empty, append_cons. cbn [JS.trimStart].
    rewrite (is_digit_not_space d Hdigit), (split_sign_digit d _ Hdigit).
    rewrite <- append_cons, Htake. cbn [JS.is_empty].
    unfold decimal_value. do 2 f_equal; lia.
  - rewrite append_cons, append_empty.
    change (JS.trimStart (String "+" (String d digits +:+ rest)))
      with (String "+" (String d digits +:+ rest)).
    cbn [JS.split_sign]. rewrite Htake. cbn [JS.is_empty].
    unfold decimal_value. do 2 f_equal; lia.
  - rewrite append_cons, append_empty.
    change (JS.trimStart (String "-" (String d digits +:+ rest)))
      with (String "-" (String d digits +:+ rest)).
    cbn [JS.split_sign]. rewrite Htake. cbn [JS.is_empty].
    unfold decimal_value. do 2 f_equal; lia.
Qed.

(** [parseInt] gives a number only for a token that begins with a
    numeral. *)
Lemma parseInt_Some_begins token v :
  all_chars (λ c, negb (JS.is_space c)) token = true →
  JS.parseInt token = Some v → ∃ n, begins_with_numeral token n.
Proof.
  intros Htoken. unfold JS.parseInt. rewrite (trimStart_no_space _ Htoken).
  assert (∀ body, JS.is_empty (JS.take_digits body) = false →
            ∃ digits rest, body = digits +:+ rest ∧ is_decimal digits = true
                           ∧ starts_with_digit rest = false) as Hbody.
  { intros body Hne. destruct (take_digits_split body) as (post & Hpost & Hrest).
    exists (JS.take_digits body), post. split; [done|]. split; [|done].
    unfold is_decimal. rewrite Hne. by destruct (take_digits_prefix body) as [-> _]. }
  destruct (split_sign_cases token) as [(r & -> & ->)|[(r & -> & ->)| ->]];
    destruct (JS.is_empty (JS.take_digits _)) eqn:Hne; try done; intros _;
    destruct (Hbody _ Hne) as (digits & rest & Heq & Hd & Hrest).
  - exists (- decimal_value digits), "-", digits, rest.
    rewrite append_cons, append_empty, <- Heq. auto 10.
  - exists (decimal_value digits), "+", digits, rest.
    rewrite append_cons, append_empty, <- Heq. auto 10.
  - exists (decimal_value digits), "", digits, rest.
    rewrite append_empty, <- Heq. auto 10.
Qed.

(** ** The parsers *)

Lemma match_host_port_digits s :
  JS.all_digits s = true → match_host_port s = None.
Proof.
  induction s as [|c s IH]; simpl; [done|].
  intros [Hc Hs]%andb_true_iff. rewrite (IH Hs).
  destruct (is_digit_not_sign c Hc) as (_ & _ & Hcolon).
  destruct (JS.is_line_terminator c); by rewrite (proj2 (Ascii.eqb_neq c ":") Hcolon).
Qed.

(** The address pattern of [parseAddress] splits a host, a colon and a
    decimal numeral at that colon. *)
Lemma match_host_port_wf host digits :
  all_chars (λ c, negb (JS.is_line_terminator c)) host = true →
  is_decimal digits = true →
  match_host_port (host +:+ ":" +:+ digits) = Some (host, digits).
Proof.
  intros Hhost [Hne Hall]%andb_true_iff.
  induction host as [|c host IH].
  - rewrite append_empty, append_cons, append_empty. simpl.
    by rewrite (match_host_port_digits _ Hall), Hall, Hne.
  - simpl in Hhost. apply andb_true_iff in Hhost as [Hc Hhost].
    rewrite append_cons. simpl. apply negb_true_iff in Hc. rewrite Hc.
    by rewrite (IH Hhost).
Qed.

Lemma match_host_port_sound s host digits :
  match_host_port s = Some (host, digits) →
  s = host +:+ ":" +:+ digits
  ∧ all_chars (λ c, negb (JS.is_line_terminator c)) host = true
  ∧ is_decimal digits = true.
Proof.
  revert host digits. induction s as [|c s IH]; intros host digits; simpl; [done|].
  destruct (if JS.is_line_terminator c then None else match_host_port s)
    as [[h d]|] eqn:Hinner.
  - intros [= <- <-]. destruct (JS.is_line_terminator c) eqn:Hc; [done|].
    destruct (IH _ _ Hinner) as (-> & Hh & Hd).
    split; [done|]. split; [by simpl; rewrite Hc, Hh|done].
  - destruct (Ascii.eqb_spec c ":") as [->|]; [|done]. simpl.
    destruct (JS.all_digits s) eqn:Hall; [|done].
    destruct (JS.is_empty s) eqn:Hne; [done|]. simpl.
    intros [= <- <-]. split; [done|]. split; [done|].
    unfold is_decimal. by rewrite Hne, Hall.
Qed.

Lemma snoc_is_cons s c : ∃ b t, s +:+ String c "" = String b t.
Proof. destruct s; [by eexists _, _|]. rewrite append_cons. by eexists _, _. Qed.

Lemma last_char_cons a b t : JS.last_char (String a (String b t)) = JS.last_char (String b t).
Proof. reflexivity. Qed.

Lemma drop_last_cons a b t :
  JS.drop_last (String a (String b t)) = String a (JS.drop_last (String b t)).
Proof. reflexivity. Qed.

Lemma last_char_snoc s c : JS.last_char (s +:+ String c "") = Some c.
Proof.
  induction s as [|a s IH]; [done|]. rewrite append_cons.
  destruct (snoc_is_cons s c) as (b & t & Hs).
  by rewrite Hs, last_char_cons, <- Hs.
Qed.

Lemma drop_last_snoc s c : JS.drop_last (s +:+ String c "") = s.
Proof.
  induction s as [|a s IH]; [done|]. rewrite append_cons.
  destruct (snoc_is_cons s c) as (b & t & Hs).
  by rewrite Hs, drop_last_cons, <- Hs, IH.
Qed.

Lemma strip_brackets_wrapped host :
  strip_brackets ("[" +:+ host +:+ "]") = host.
Proof.
  unfold strip_brackets, JS.endsWith_char.
  rewrite append_cons, append_empty. cbn [JS.startsWith Ascii.eqb Bool.eqb andb].
  change (String "[" (host +:+ "]")) with ("[" +:+ (host +:+ "]")).
  replace ("[" +:+ host +:+ "]") with (("[" +:+ host) +:+ "]")
    by (by rewrite append_cons, append_empty).
  rewrite last_char_snoc. cbn [Ascii.eqb Bool.eqb andb].
  rewrite append_cons, append_empty. cbn [JS.slice_1_m1].
  apply drop_last_snoc.
Qed.

Lemma append_snoc_inj s t c : s +:+ String c "" = t +:+ String c "" → s = t.
Proof. intros H. by rewrite <- (drop_last_snoc s c), H, drop_last_snoc. Qed.

Lemma last_char_drop_last s c :
  JS.last_char s = Some c → s = JS.drop_last s +:+ String c "".
Proof.
  induction s as [|a s IH]; [done|].
  destruct s as [|b t]; [by intros [= ->]|].
  rewrite last_char_cons, drop_last_cons, append_cons. intros H. by rewrite <- IH.
Qed.

(** What [strip_brackets] returns is the host without its enclosing
    brackets. *)
Lemma strip_brackets_unbracketed host : unbracketed host (strip_brackets host).
Proof.
  unfold strip_brackets, JS.endsWith_char.
  destruct (JS.startsWith host "[" && _) eqn:Htest.
  - left. apply andb_true_iff in Htest as [Hopen Hclose].
    destruct host as [|a t]; [done|].
    cbn [JS.startsWith] in Hopen. apply andb_true_iff in Hopen as [Ha _].
    apply Ascii.eqb_eq in Ha as <-.
    destruct t as [|b t]; [done|]. rewrite last_char_cons in Hclose.
    destruct (JS.last_char (String b t)) as [d|] eqn:Hlast; [|done].
    apply Ascii.eqb_eq in Hclose as ->.
    exists (JS.drop_last (String b t)). split; [|done].
    by rewrite append_cons, append_empty, <- (last_char_drop_last _ _ Hlast).
  - right. split; [|done]. intros inner ->.
    rewrite append_cons, append_empty in Htest.
    cbn [JS.startsWith Ascii.eqb Bool.eqb andb] in Htest.
    change (String "[" (inner +:+ "]")) with ("[" +:+ (inner +:+ "]")) in Htest.
    replace ("[" +:+ inner +:+ "]") with (("[" +:+ inner) +:+ "]") in Htest
      by (by rewrite append_cons, append_empty).
    by rewrite last_char_snoc in Htest.
Qed.

Lemma unbracketed_functional host a b : unbracketed host a → unbracketed host b → a = b.
Proof.
  intros [(i & -> & ->)|[Hno ->]] [(j & Hj & ->)|[Hno' ->]].
  - rewrite !append_cons, !append_empty in Hj. injection Hj as Hj.
    by apply append_snoc_inj in Hj.
  - by destruct (Hno' i).
  - by destruct (Hno j).
  - done.
Qed.

Lemma unbracketed_strip host a : unbracketed host a ↔ a = strip_brackets host.
Proof.
  split.
  - intros Ha. eapply unbracketed_functional; [done|]. apply strip_brackets_unbracketed.
  - intros ->. apply strip_brackets_unbracketed.
Qed.

(** [parseAddress] accepts the tokens the address pattern splits, and gives
    the host through [strip_brackets] and the digits through [parseInt]. *)
Lemma parseAddress_Some token address p :
  parseAddress token = Some (address, p)
  ↔ ∃ host digits,
      token = host +:+ ":" +:+ digits
      ∧ all_chars (λ c, negb (JS.is_line_terminator c)) host = true
      ∧ is_decimal digits = true
      ∧ address = strip_brackets host
      ∧ p = JS.round_double (decimal_value digits).
Proof.
  unfold parseAddress. split.
  - destruct (match_host_port token) as [[host digits]|] eqn:Hm; [|done].
    destruct (match_host_port_sound _ _ _ Hm) as (-> & Hh & Hd).
    rewrite (parseInt_numeral _ Hd). intros [= <- <-]. by exists host, digits.
  - intros (host & digits & -> & Hh & Hd & -> & ->).
    by rewrite (match_host_port_wf _ _ Hh Hd), (parseInt_numeral _ Hd).
Qed.

Lemma parseAddress_wf host digits :
  all_chars (λ c, negb (JS.is_space c)) (host +:+ ":" +:+ digits) = true →
  is_decimal digits = true → exact_integer (decimal_value digits) →
  parseAddress (host +:+ ":" +:+ digits)
  = Some (strip_brackets host, decimal_value digits).
Proof.
  intros Htoken Hdigits Hexact. unfold parseAddress.
  assert (all_chars (λ c, negb (JS.is_line_terminator c)) host = true) as Hhost.
  { rewrite all_chars_append in Htoken. apply andb_true_iff in Htoken as [Hhost _].
    eapply all_chars_impl; [|exact Hhost]. intros c Hc. cbv beta in *.
    destruct (JS.is_line_terminator c) eqn:Hlt; [|done].
    by rewrite (is_line_terminator_space c Hlt) in Hc. }
  by rewrite (match_host_port_wf _ _ Hhost Hdigits), (parseInt_decimal _ Hdigits Hexact).
Qed.

(** A line whose first column is a protocol is neither empty nor one of
    the two banner lines. *)
Lemma windows_line_not_banner rawLine proto rest :
  columns rawLine = proto :: rest →
  JS.toUpperCase proto = "TCP" ∨ JS.toUpperCase proto = "UDP" →
  JS.is_empty (JS.trim rawLine) || JS.startsWith (JS.trim rawLine) "Proto"
    || JS.startsWith (JS.trim rawLine) "Active" = false.
Proof.
  unfold columns. intros Hcols Hproto.
  apply orb_false_iff. split; [apply orb_false_iff; split|].
  - destruct (JS.trim rawLine); [|done].
    injection Hcols as <- _. by destruct Hproto.
  - destruct (JS.startsWith (JS.trim rawLine) "Proto") eqn:Hs; [|done].
    eapply split_ws_startsWith in Hs; [|done..].
    apply startsWith_toUpperCase in Hs. by destruct Hproto as [Hp|Hp]; rewrite Hp in Hs.
  - destruct (JS.startsWith (JS.trim rawLine) "Active") eqn:Hs; [|done].
    eapply split_ws_startsWith in Hs; [|done..].
    apply startsWith_toUpperCase in Hs. by destruct Hproto as [Hp|Hp]; rewrite Hp in Hs.
Qed.

(** C5, as the code has it. For every line of a Windows-style listing, with its columns
    taken between runs of white space: a line whose first column, converted
    to upper case, is neither TCP nor UDP gives no record; a TCP line
    (protocol in any letter case) with a local address host:port and a
    decimal pid in the fifth column, both numerals below 2^53, gives its
    record if and only if its state column equals LISTENING, and nothing
    otherwise; a UDP line with a local address host:port and a decimal pid
    in the fourth column, both numerals below 2^53, always gives its record.
    The address of the record is the host without its enclosing brackets.
    A line whose pid numeral reaches 2^1024 is read as an infinite pid and
    gives no record.  The records of a text are those of its lines.  The
    line [TCP 0.0.0.0:8080 0.0.0.0:0 LISTENING 9912] gives exactly the record
    of pid 9912, port 8080, protocol TCP, address 0.0.0.0; with the state
    ESTABLISHED it gives nothing. *)
Theorem parseWindowsLine_spec (rawLine : string) :
  (∀ proto rest, columns rawLine = proto :: rest →
     JS.toUpperCase proto ≠ "TCP" → JS.toUpperCase proto ≠ "UDP" →
     parseWindowsLine rawLine = [])
  ∧ (∀ proto host portDigits foreign state pidText rest,
       columns rawLine
         = proto :: (host +:+ ":" +:+ portDigits) :: foreign :: state :: pidText :: rest →
       JS.toUpperCase proto = "TCP" →
       is_decimal portDigits = true → exact_integer (decimal_value portDigits) →
       is_decimal pidText = true → exact_integer (decimal_value pidText) →
       ∃ address, unbracketed host address
         ∧ parseWindowsLine rawLine =
             if String.eqb state "LISTENING"
             then [mkPortProcess (decimal_value pidText) (decimal_value portDigits)
                     "TCP" address None]
             else [])
  ∧ (∀ proto host portDigits foreign pidText rest,
       columns rawLine
         = proto :: (host +:+ ":" +:+ portDigits) :: foreign :: pidText :: rest →
       JS.toUpperCase proto = "UDP" →
       is_decimal portDigits = true → exact_integer (decimal_value portDigits) →
       is_decimal pidText = true → exact_integer (decimal_value pidText) →
       ∃ address, unbracketed host address
         ∧ parseWindowsLine rawLine =
             [mkPortProcess (decimal_value pidText) (decimal_value portDigits)
                "UDP" address None])
  ∧ (∀ proto localAddress foreign state pidText rest,
       columns rawLine = proto :: localAddress :: foreign :: state :: pidText :: rest →
       JS.toUpperCase proto = "TCP" →
       is_decimal pidText = true → JS.infinity ≤ decimal_value pidText →
       parseWindowsLine rawLine = [])
  ∧ (∀ proto localAddress foreign pidText rest,
       columns rawLine = proto :: localAddress :: foreign :: pidText :: rest →
       JS.toUpperCase proto = "UDP" →
       is_decimal pidText = true → JS.infinity ≤ decimal_value pidText →
       parseWindowsLine rawLine = [])
  ∧ (∀ output r, In r (parseWindowsOutput output)
       ↔ ∃ line, In line (JS.split_lines output) ∧ In r (parseWindowsLine line))
  ∧ parseWindowsLine "TCP 0.0.0.0:8080 0.0.0.0:0 LISTENING 9912"
    = [mkPortProcess 9912 8080 "TCP" "0.0.0.0" None]
  ∧ parseWindowsLine "TCP 0.0.0.0:8080 0.0.0.0:0 ESTABLISHED 9912" = [].
Proof.
  split; [|split; [|split; [|split; [|split; [|split; [|split]]]]]];
    [| | | | | |reflexivity..].
  - intros proto rest Hcols Htcp Hudp. unfold parseWindowsLine.
    destruct (_ || _ || _); [done|]. fold (columns rawLine). rewrite Hcols.
    destruct (_ <? 4)%nat; [done|]. cbn [lookup list_lookup default]. unfold id.
    apply String.eqb_neq in Htcp, Hudp. by rewrite Htcp, Hudp.
  - intros proto host portDigits foreign state pidText rest Hcols Hproto
      Hport Hportx Hpid Hpidx.
    exists (strip_brackets host). split; [apply strip_brackets_unbracketed|].
    unfold parseWindowsLine.
    rewrite (windows_line_not_banner _ _ _ Hcols) by auto.
    fold (columns rawLine). rewrite Hcols.
    cbn [length Nat.ltb Nat.leb lookup list_lookup default]. unfold id.
    rewrite Hproto.
    cbn [String.eqb Ascii.eqb Bool.eqb].
    destruct (String.eqb state "LISTENING"); [|done].
    cbn [negb JS.parseInt_value from_option].
    rewrite (parseInt_decimal _ Hpid Hpidx), (isFinite_exact _ Hpidx).
    cbn [negb]. rewrite parseAddress_wf; [done| |done..].
    apply (columns_no_space rawLine). rewrite Hcols. set_solver.
  - intros proto host portDigits foreign pidText rest Hcols Hproto
      Hport Hportx Hpid Hpidx.
    exists (strip_brackets host). split; [apply strip_brackets_unbracketed|].
    unfold parseWindowsLine.
    rewrite (windows_line_not_banner _ _ _ Hcols) by auto.
    fold (columns rawLine). rewrite Hcols.
    cbn [length Nat.ltb Nat.leb lookup list_lookup default]. unfold id.
    rewrite Hproto.
    cbn [String.eqb Ascii.eqb Bool.eqb JS.parseInt_value from_option].
    rewrite (parseInt_decimal _ Hpid Hpidx), (isFinite_exact _ Hpidx).
    cbn [negb]. rewrite parseAddress_wf; [done| |done..].
    apply (columns_no_space rawLine). rewrite Hcols. set_solver.
  - intros proto localAddress foreign state pidText rest Hcols Hproto Hpid Hbig.
    unfold parseWindowsLine.
    rewrite (windows_line_not_banner _ _ _ Hcols) by auto.
    fold (columns rawLine). rewrite Hcols.
    cbn [length Nat.ltb Nat.leb lookup list_lookup default]. unfold id.
    rewrite Hproto.
    cbn [String.eqb Ascii.eqb Bool.eqb].
    destruct (String.eqb state "LISTENING"); [|done].
    cbn [negb JS.parseInt_value from_option].
    by rewrite (parseInt_numeral _ Hpid), (round_double_overflow _ Hbig),
      isFinite_infinity.
  - intros proto localAddress foreign pidText rest Hcols Hproto Hpid Hbig.
    unfold parseWindowsLine.
    rewrite (windows_line_not_banner _ _ _ Hcols) by auto.
    fold (columns rawLine). rewrite Hcols.
    cbn [length Nat.ltb Nat.leb lookup list_lookup default]. unfold id.
    rewrite Hproto.
    cbn [String.eqb Ascii.eqb Bool.eqb JS.parseInt_value from_option].
    by rewrite (parseInt_numeral _ Hpid), (round_double_overflow _ Hbig),
      isFinite_infinity.
  - intros output r. unfold parseWindowsOutput. rewrite in_concat. split.
    + intros (l & (line & <- & Hline)%in_map_iff & Hr). eauto.
    + intros (line & Hline & Hr). exists (parseWindowsLine line).
      split; [|done]. apply in_map_iff. eauto.
Qed.

Lemma is_decimal_take_digits digits post :
  is_decimal digits = true → JS.is_empty (JS.take_digits (digits +:+ post)) = false.
Proof.
  intros [Hne Hall]%andb_true_iff. destruct digits as [|d digits]; [done|].
  simpl in Hall. apply andb_true_iff in Hall as [Hd _].
  rewrite append_cons. simpl. by rewrite Hd.
Qed.

Lemma host_port_rest_complete host digits post :
  all_chars is_host_char host = true → is_decimal digits = true →
  is_Some (host_port_rest (host +:+ ":" +:+ digits +:+ post)).
Proof.
  intros Hhost Hdigits. induction host as [|c host IH].
  - rewrite append_empty, append_cons, append_empty. simpl.
    destruct (host_port_rest (digits +:+ post)) as [[h d]|]; [done|].
    by rewrite (is_decimal_take_digits _ _ Hdigits).
  - simpl in Hhost. apply andb_true_iff in Hhost as [Hc Hhost].
    rewrite append_cons. simpl. rewrite Hc.
    by destruct (IH Hhost) as [[h d] ->].
Qed.

Lemma host_port_here_complete host digits post :
  JS.is_empty host = false → all_chars is_host_char host = true →
  is_decimal digits = true →
  is_Some (host_port_here (host +:+ ":" +:+ digits +:+ post)).
Proof.
  intros Hne Hhost Hdigits. destruct host as [|c host]; [done|].
  simpl in Hhost. apply andb_true_iff in Hhost as [Hc Hhost].
  rewrite append_cons. simpl. rewrite Hc.
  by destruct (host_port_rest_complete host digits post Hhost Hdigits) as [[h d] ->].
Qed.

Lemma match_unix_address_unfold s :
  match_unix_address s =
    match host_port_here s with
    | Some m => Some m
    | None =>
        match s with
        | EmptyString => None
        | String _ s' => match_unix_address s'
        end
    end.
Proof. by destruct s. Qed.

(** A line that contains an address:port pair has a match. *)
Lemma match_unix_address_complete line :
  contains_host_port line → is_Some (match_unix_address line).
Proof.
  intros (pre & host & digits & post & -> & Hne & Hhost & Hdigits).
  induction pre as [|c pre IH]; rewrite match_unix_address_unfold.
  - rewrite append_empty.
    by destruct (host_port_here_complete host digits post Hne Hhost Hdigits)
      as [m ->].
  - destruct (host_port_here _); [done|]. by rewrite append_cons.
Qed.

Lemma host_port_rest_sound s host digits :
  host_port_rest s = Some (host, digits) →
  all_chars is_host_char host = true ∧ is_decimal digits = true
  ∧ ∃ post, s = host +:+ ":" +:+ digits +:+ post ∧ starts_with_digit post = false.
Proof.
  revert host digits. induction s as [|c s IH]; intros host digits; simpl; [done|].
  destruct (if is_host_char c then host_port_rest s else None)
    as [[h d]|] eqn:Hinner.
  - intros [= <- <-]. destruct (is_host_char c) eqn:Hc; [|done].
    destruct (IH _ _ Hinner) as (Hh & Hd & post & -> & Hpost).
    split; [by simpl; rewrite Hc, Hh|]. split; [done|]. by exists post.
  - destruct (Ascii.eqb_spec c ":") as [->|]; [|done]. simpl.
    destruct (JS.is_empty (JS.take_digits s)) eqn:Hne; [done|].
    intros [= <- <-]. destruct (take_digits_prefix s) as [Hall _].
    destruct (take_digits_split s) as (post & Hpost & Hrest).
    split; [done|]. split; [unfold is_decimal; by rewrite Hne, Hall|].
    exists post. by rewrite append_empty, append_cons, append_empty, <- Hpost.
Qed.

Lemma host_port_here_sound s host digits :
  host_port_here s = Some (host, digits) →
  JS.is_empty host = false ∧ all_chars is_host_char host = true
  ∧ is_decimal digits = true
  ∧ ∃ post, s = host +:+ ":" +:+ digits +:+ post ∧ starts_with_digit post = false.
Proof.
  destruct s as [|c s]; simpl; [done|].
  destruct (is_host_char c) eqn:Hc; [|done].
  destruct (host_port_rest s) as [[h d]|] eqn:Hrest; [|done].
  intros [= <- <-].
  destruct (host_port_rest_sound _ _ _ Hrest) as (Hh & Hd & post & -> & Hpost).
  split; [done|]. split; [by simpl; rewrite Hc, Hh|]. split; [done|]. by exists post.
Qed.

(** What the pattern matches is a pair of the line: host characters, a
    colon, and all the digits that follow. *)
Lemma match_unix_address_pair line host digits :
  match_unix_address line = Some (host, digits) →
  ∃ pre post,
    line = pre +:+ host +:+ ":" +:+ digits +:+ post
    ∧ JS.is_empty host = false
    ∧ all_chars is_host_char host = true
    ∧ is_decimal digits = true
    ∧ starts_with_digit post = false.
Proof.
  induction line as [|c line IH]; rewrite match_unix_address_unfold.
  - done.
  - destruct (host_port_here (String c line)) as [[h d]|] eqn:Hhere.
    + intros [= <- <-].
      destruct (host_port_here_sound _ _ _ Hhere) as (Hne & Hh & Hd & post & Heq & Hpost).
      exists "", post. by rewrite append_empty.
    + intros (pre & post & -> & ?)%IH.
      exists (String c pre), post. by rewrite append_cons.
Qed.

(** A match is an address:port pair of the line. *)
Lemma match_unix_address_sound line host digits :
  match_unix_address line = Some (host, digits) →
  is_decimal digits = true ∧ contains_host_port line.
Proof.
  induction line as [|c line IH]; rewrite match_unix_address_unfold.
  - done.
  - destruct (host_port_here (String c line)) as [[h d]|] eqn:Hhere.
    + intros [= <- <-].
      destruct (host_port_here_sound _ _ _ Hhere) as (Hne & Hh & Hd & post & Heq & _).
      split; [done|]. exists "", h, d, post. by rewrite append_empty.
    + intros [Hd (pre & h & d & post & -> & ?)]%IH. split; [done|].
      exists (String c pre), h, d, post. by rewrite append_cons.
Qed.

(** A line with a number in its second column is not blank. *)
Lemma numbered_line_not_blank line n :
  JS.parseInt_value (columns line !! 1%nat) = Some n →
  JS.is_empty (JS.trim line) = false.
Proof. unfold columns. by destruct (JS.trim line). Qed.

(** C6, as the code has it. For every line of a Unix-style listing, with its columns taken between
    runs of white space: a line whose second column begins with a numeral
    (an optional sign, then decimal digits; what follows the digits is
    ignored) that denotes a number below 2^53 in magnitude, and which
    contains an address:port pair, gives exactly one record: its pid is that
    number, its port and address come from a pair of the line, the one the
    pattern matches (host characters, a colon, all the digits that follow):
    the port is the double of the numeral, which is its number below 2^53,
    and the address is the host without its enclosing brackets; its
    protocol is the one found in the line (TCP by default) and its command
    the first column.  A line that is blank, or has no second column, or
    whose second column does not begin with a numeral, or begins with one
    that reaches 2^1024 in magnitude, or which contains no address:port
    pair, gives no record.  No line gives more than one record, and none
    makes the parse fail.  The records of a text are those of its lines
    after the first (the header).  The line
    [node 4821 ... TCP *:3000 (LISTEN)] gives the record of pid 4821, port
    3000, protocol TCP, address [*]; with 12abc as second column it gives
    the record of pid 12, with -5 that of pid -5, and with PID none. *)
Theorem parseUnixLine_spec (line : string) :
  (∀ token n, columns line !! 1%nat = Some token →
     begins_with_numeral token n → exact_integer n →
     contains_host_port line →
     ∃ pre host digits post address,
       line = pre +:+ host +:+ ":" +:+ digits +:+ post
       ∧ JS.is_empty host = false
       ∧ all_chars is_host_char host = true
       ∧ is_decimal digits = true
       ∧ starts_with_digit post = false
       ∧ match_unix_address line = Some (host, digits)
       ∧ unbracketed host address
       ∧ parseUnixLine line =
           [mkPortProcess n (JS.round_double (decimal_value digits))
              (unix_protocol line) address (columns line !! 0%nat)])
  ∧ (∀ v, exact_integer v → JS.round_double v = v)
  ∧ (JS.is_empty (JS.trim line) = true → parseUnixLine line = [])
  ∧ (columns line !! 1%nat = None → parseUnixLine line = [])
  ∧ (∀ token, columns line !! 1%nat = Some token →
       (∀ n, ¬ begins_with_numeral token n) → parseUnixLine line = [])
  ∧ (∀ token n, columns line !! 1%nat = Some token →
       begins_with_numeral token n → JS.infinity ≤ Z.abs n →
       parseUnixLine line = [])
  ∧ (¬ contains_host_port line → parseUnixLine line = [])
  ∧ (length (parseUnixLine line) ≤ 1)%nat
  ∧ (∀ output r, In r (parseUnixOutput output)
       ↔ ∃ l, In l (tail (JS.split_lines output)) ∧ In r (parseUnixLine l))
  ∧ parseUnixLine "node 4821 ... TCP *:3000 (LISTEN)"
    = [mkPortProcess 4821 3000 "TCP" "*" (Some "node")]
  ∧ parseUnixLine "node 12abc ... TCP *:3000 (LISTEN)"
    = [mkPortProcess 12 3000 "TCP" "*" (Some "node")]
  ∧ parseUnixLine "node -5 ... TCP *:3000 (LISTEN)"
    = [mkPortProcess (-5) 3000 "TCP" "*" (Some "node")]
  ∧ parseUnixLine "node PID ... TCP *:3000 (LISTEN)" = [].
Proof.
  split; [|split; [|split; [|split; [|split; [|split; [|split; [|split; [|split]]]]]]]];
    [| | | | | | | | |by vm_compute].
  - intros token n Htoken Hbegin Hexact Hpair.
    assert (JS.parseInt_value (columns line !! 1%nat) = Some n) as Hpid.
    { rewrite Htoken. cbn [JS.parseInt_value].
      by rewrite (parseInt_begins _ _ Hbegin), round_double_exact. }
    destruct (match_unix_address_complete _ Hpair) as [[host digits] Hm].
    destruct (match_unix_address_pair _ _ _ Hm) as (pre & post & Hline & Hne & Hh & Hd & Hpost).
    exists pre, host, digits, post, (strip_brackets host).
    do 6 (split; [done|]). split; [apply strip_brackets_unbracketed|].
    unfold parseUnixLine.
    rewrite (numbered_line_not_blank _ _ Hpid).
    fold (columns line). rewrite Hpid, (isFinite_exact _ Hexact). cbn [negb].
    by rewrite Hm, (parseInt_numeral _ Hd).
  - apply round_double_exact.
  - intros Hblank. unfold parseUnixLine. by rewrite Hblank.
  - intros Hmissing. unfold parseUnixLine.
    destruct (JS.is_empty (JS.trim line)); [done|].
    fold (columns line). by rewrite Hmissing.
  - intros token Htoken Hnone. unfold parseUnixLine.
    destruct (JS.is_empty (JS.trim line)); [done|].
    fold (columns line). rewrite Htoken. cbn [JS.parseInt_value].
    destruct (JS.parseInt token) as [v|] eqn:Hv; [|done].
    apply parseInt_Some_begins in Hv as [n Hn]; [by destruct (Hnone n)|].
    apply (columns_no_space line). by eapply list_elem_of_lookup_2.
  - intros token n Htoken Hbegin Hbig. unfold parseUnixLine.
    destruct (JS.is_empty (JS.trim line)); [done|].
    fold (columns line). rewrite Htoken. cbn [JS.parseInt_value].
    by rewrite (parseInt_begins _ _ Hbegin), (round_double_not_finite _ Hbig).
  - intros Hnopair. unfold parseUnixLine.
    destruct (JS.is_empty (JS.trim line)); [done|].
    destruct (JS.parseInt_value _); [|done].
    destruct (negb _); [done|].
    destruct (match_unix_address line) as [[host digits]|] eqn:Hm; [|done].
    by destruct (match_unix_address_sound _ _ _ Hm) as [_ Hpair].
  - unfold parseUnixLine. repeat case_match; simpl; lia.
  - intros output r. unfold parseUnixOutput. rewrite in_concat. split.
    + intros (l & (ln & <- & Hln)%in_map_iff & Hr). eauto.
    + intros (ln & Hln & Hr). exists (parseUnixLine ln).
      split; [|done]. apply in_map_iff. eauto.
Qed.

(** ** Orderings *)

Global Instance le_port_pid_trans : Transitive le_port_pid.
Proof. intros a b c. unfold le_port_pid. lia. Qed.

Lemma compareProcesses_neg a b : compareProcesses a b < 0 → le_port_pid a b.
Proof.
  unfold compareProcesses, le_port_pid.
  destruct (Z.eqb_spec (port a) (port b)); lia.
Qed.

Lemma compareProcesses_nonneg a b : ¬ compareProcesses a b < 0 → le_port_pid b a.
Proof.
  unfold compareProcesses, le_port_pid.
  destruct (Z.eqb_spec (port a) (port b)); lia.
Qed.

Lemma sort_insert_HdRel x y l :
  le_port_pid y x → HdRel le_port_pid y l → HdRel le_port_pid y (sort_insert x l).
Proof.
  intros Hyx Hhd. destruct l as [|z l]; simpl.
  - by constructor.
  - destruct (Z.ltb_spec (compareProcesses x z) 0); constructor; try done.
    by inversion Hhd.
Qed.

Lemma sort_insert_Sorted x l :
  Sorted le_port_pid l → Sorted le_port_pid (sort_insert x l).
Proof.
  induction 1 as [|y l Hs IH Hhd]; simpl.
  - repeat constructor.
  - destruct (Z.ltb_spec (compareProcesses x y) 0) as [Hlt|Hge].
    + constructor; [by constructor|]. constructor. by apply compareProcesses_neg.
    + constructor; [done|]. apply sort_insert_HdRel; [|done].
      apply compareProcesses_nonneg. lia.
Qed.

Lemma sort_insert_Permutation x l : sort_insert x l ≡ₚ x :: l.
Proof.
  induction l as [|y l IH]; simpl; [done|].
  destruct (compareProcesses x y <? 0); [done|].
  rewrite IH. apply Permutation_swap.
Qed.

Lemma sortProcesses_Sorted l : Sorted le_port_pid (sortProcesses l).
Proof.
  unfold sortProcesses.
  assert (∀ acc, Sorted le_port_pid acc →
    Sorted le_port_pid (fold_left (λ acc x, sort_insert x acc) l acc)) as H.
  { induction l as [|x l IH]; intros acc Hacc; simpl; [done|].
    apply IH. by apply sort_insert_Sorted. }
  apply H. constructor.
Qed.

Lemma sortProcesses_StronglySorted l : StronglySorted le_port_pid (sortProcesses l).
Proof.
  apply Sorted_StronglySorted; [|apply sortProcesses_Sorted].
  intros a b c. apply le_port_pid_trans.
Qed.

Lemma sortProcesses_Permutation l : sortProcesses l ≡ₚ l.
Proof.
  unfold sortProcesses.
  assert (∀ acc, fold_left (λ acc x, sort_insert x acc) l acc ≡ₚ acc ++ l) as H.
  { induction l as [|x l IH]; intros acc; simpl.
    - by rewrite app_nil_r.
    - rewrite IH, sort_insert_Permutation.
      by rewrite (Permutation_middle acc l x). }
  by rewrite H.
Qed.

Lemma StronglySorted_filter_keeps {A} (R : relation A) (P : A → Prop)
    `{∀ x, Decision (P x)} (l : list A) :
  StronglySorted R l → StronglySorted R (filter P l).
Proof.
  induction 1 as [|x l Hs IH Hall]; [constructor|].
  rewrite filter_cons. destruct (decide (P x)); [|done].
  constructor; [done|].
  apply list.Forall_forall. intros y [_ Hy]%list_elem_of_filter.
  by eapply list.Forall_forall in Hall.
Qed.

(** ** Properties of the operations *)

(** ** Enrichment, termination and rendering: the pure parts *)

Lemma elem_of_distinct_from seen xs x :
  x ∈ xs → x ∉ seen → x ∈ distinct_from seen xs.
Proof.
  revert seen. induction xs as [|y xs IH]; intros seen Hin Hseen; simpl.
  - by apply elem_of_nil in Hin.
  - destruct (decide (y ∈ seen)) as [Hy|Hy].
    + apply IH; [|done]. apply elem_of_cons in Hin as [->|]; done.
    + destruct (decide (x = y)) as [->|Hne]; [left|].
      apply elem_of_cons in Hin as [|Hin]; [done|].
      right. apply IH; [done|]. set_solver.
Qed.

Lemma elem_of_distinct xs x : x ∈ xs → x ∈ distinct xs.
Proof. intros. apply elem_of_distinct_from; [done|]. set_solver. Qed.

Lemma distinct_from_subseteq seen xs x : x ∈ distinct_from seen xs → x ∈ xs.
Proof.
  revert seen. induction xs as [|y xs IH]; intros seen; simpl; [done|].
  destruct (decide (y ∈ seen)).
  - intros ?%IH. by right.
  - intros [->|?%IH]%elem_of_cons; [left|by right].
Qed.

(** Every settled attempt makes exactly one push: on [success] when it
    resolved, on [failed] when it rejected. *)
Lemma settle_all settled out :
  let out' := fold_left settleAttempt settled out in
  success out' = success out ++ (filter (λ a, resolved a.2) settled).*1
  ∧ (failed out').*1 = (failed out).*1 ++ (filter (λ a, ¬ resolved a.2) settled).*1.
Proof.
  revert out. induction settled as [|[m r] settled IH]; intros out.
  - simpl. by rewrite !app_nil_r.
  - cbn [fold_left]. destruct (IH (settleAttempt out (m, r))) as [Hs Hf].
    cbv zeta. rewrite Hs, Hf, !filter_cons. unfold settleAttempt.
    destruct r as [u|e]; cbn [fst snd resolved success failed].
    + rewrite decide_True, decide_False by (unfold Is_true; tauto).
      rewrite fmap_cons. cbn [fst]. by rewrite <- app_assoc.
    + rewrite decide_False, decide_True by (unfold Is_true; tauto).
      rewrite !fmap_cons, fmap_app. cbn [fst fmap list_fmap].
      by rewrite <- app_assoc.
Qed.

Lemma renderEntries seenKeys processes keys lines :
  fold_left (renderEntry seenKeys) processes (keys, lines)
  = (list_to_set (makeKey <$> processes) ∪ keys,
     lines ++ ((λ proc, entryLine (bool_decide (makeKey proc ∉ seenKeys)) proc)
                 <$> processes)).
Proof.
  revert keys lines. induction processes as [|proc processes IH];
    intros keys lines; simpl.
  - f_equal; [set_solver|by rewrite app_nil_r].
  - unfold renderEntry at 2. simpl. rewrite IH. f_equal; [set_solver|].
    rewrite <- app_assoc. simpl. do 3 f_equal.
    by rewrite bool_decide_not.
Qed.

(** A render of a read that returned [processes]. *)
Lemma renderFetched_Ok seenKeys processes :
  renderFetched seenKeys (Ok processes) =
    mkRendered
      (if decide (processes = [])
       then ["No matching listening processes found."]
       else (λ proc, entryLine (bool_decide (makeKey proc ∉ seenKeys)) proc)
              <$> processes)
      (list_to_set (makeKey <$> processes)).
Proof.
  unfold renderFetched. destruct processes as [|proc processes].
  - simpl. f_equal; set_solver.
  - cbn [length Nat.eqb]. rewrite renderEntries, decide_False by done.
    cbn [app]. f_equal; set_solver.
Qed.




Section Properties.
#[local] Set Default Proof Using "Type".
Context {OS : Type}.
Variable win32 : bool.
Variable execAsync : string → Async (OS:=OS) string.
Variable findProcess : Z → Async (OS:=OS) (list ProcessInfo).
Variable process_kill : Z → Async (OS:=OS) unit.
Variable settle_order :
  list (PortProcess * Settled unit) → list (PortProcess * Settled unit).

Local Abbreviation listAll := (listListeningProcesses win32 execAsync findProcess).
Local Abbreviation byPort := (filterByPort win32 execAsync findProcess).
Local Abbreviation byRange := (filterByPortRange win32 execAsync findProcess).

Lemma bind_Ok {A B} (m : Async A) (k : A → Async B) (os os' : OS) b :
  bind m k os = (Ok b, os') ↔ ∃ a os1, m os = (Ok a, os1) ∧ k a os1 = (Ok b, os').
Proof.
  unfold bind. split.
  - destruct (m os) as [[a|e] os1]; [eauto|discriminate].
  - by intros (a & os1 & -> & ->).
Qed.

Lemma listAll_Ok os l os1 :
  listAll os = (Ok l, os1) → ∃ enriched, l = sortProcesses enriched.
Proof.
  unfold listListeningProcesses.
  intros (base & os2 & _ & (enriched & os3 & _ & H)%bind_Ok)%bind_Ok.
  unfold ret in H. exists enriched. congruence.
Qed.

(** C7. Whatever the tool printed and in whatever order, a sequence that
    [listListeningProcesses], [filterByPort] or [filterByPortRange] returns
    is sorted ascending by port and, for equal ports, by process id: every
    record is below every record after it. *)
Theorem listings_sorted (os : OS) :
  (∀ l os1, listListeningProcesses win32 execAsync findProcess os = (Ok l, os1) →
     StronglySorted le_port_pid l)
  ∧ (∀ p l os1, filterByPort win32 execAsync findProcess p os = (Ok l, os1) →
       StronglySorted le_port_pid l)
  ∧ (∀ minPort maxPort l os1,
       filterByPortRange win32 execAsync findProcess minPort maxPort os = (Ok l, os1) →
       StronglySorted le_port_pid l).
Proof.
  split; [|split].
  - intros l os1 [enriched ->]%listAll_Ok. apply sortProcesses_StronglySorted.
  - intros p l os1. unfold filterByPort.
    intros (all & os2 & [enriched ->]%listAll_Ok & H)%bind_Ok.
    unfold ret in H. injection H as <- _.
    apply StronglySorted_filter_keeps, sortProcesses_StronglySorted.
  - intros minPort maxPort l os1. unfold filterByPortRange.
    destruct (minPort >? maxPort).
    + unfold ret. intros [= <- _]. constructor.
    + intros (all & os2 & [enriched ->]%listAll_Ok & H)%bind_Ok.
      unfold ret in H. injection H as <- _.
      apply StronglySorted_filter_keeps, sortProcesses_StronglySorted.
Qed.

(** C8. For all integers [minPort] and [maxPort]: when [minPort > maxPort]
    the range filter returns the empty sequence without an error (and
    without running a discovery); when [minPort ≤ maxPort] it returns what
    [listListeningProcesses] returns, filtered to the records whose port
    lies in the range, and fails only as that discovery fails. *)
Theorem filterByPortRange_spec (minPort maxPort : Z) (os : OS) :
  (minPort > maxPort →
     filterByPortRange win32 execAsync findProcess minPort maxPort os = (Ok [], os))
  ∧ (minPort ≤ maxPort →
      filterByPortRange win32 execAsync findProcess minPort maxPort os =
        match listListeningProcesses win32 execAsync findProcess os with
        | (Ok processes, os1) =>
            (Ok (filter (λ item, minPort ≤ port item ∧ port item ≤ maxPort) processes), os1)
        | (Throw e, os1) => (Throw e, os1)
        end).
Proof.
  unfold filterByPortRange. split; intros H.
  - destruct (Z.gtb_spec minPort maxPort); [done|lia].
  - destruct (Z.gtb_spec minPort maxPort); [lia|]. unfold bind, ret.
    by destruct (listAll os) as [[?|?] ?].
Qed.

(** C4. Where signals are sent in-process (not win32): when the system
    reports that the process is absent (code ESRCH), [terminateProcess]
    returns normally; and [killByPid] fails exactly when the system call
    fails with a code other than ESRCH, with that very error. *)
Theorem terminate_absent_is_success (target : Z) (os : OS) :
  (∀ e os1, process_kill target os = (Throw e, os1) → code e = Some "ESRCH" →
     terminateProcess false execAsync process_kill target os = (Ok tt, os1))
  ∧ (∀ e os1,
       killByPid false execAsync process_kill target os = (Throw e, os1)
       ↔ process_kill target os = (Throw e, os1) ∧ code e ≠ Some "ESRCH").
Proof.
  unfold killByPid, terminateProcess, bind, try_catch, ret, throw. split.
  - intros e os1 -> Hcode. by rewrite bool_decide_eq_true_2.
  - intros e os1. destruct (process_kill target os) as [[[]|e'] os2].
    + split; [discriminate|]. by intros [? _].
    + destruct (bool_decide_reflect (code e' = Some "ESRCH")) as [Hc|Hc].
      * split; [discriminate|]. intros [[= -> ->] ?]. done.
      * split; [intros [= -> ->]; done|]. by intros [[= -> ->] _].
Qed.

Local Abbreviation getUnix := (getUnixProcesses execAsync).

(** C2, as the code has it. When the listing tool fails and the rejection
    is an Error that carries a [stdout] property, the captured text (the
    empty text when the property is empty or undefined) is parsed and the
    call succeeds with the records decoded from it, so a failure that
    captured nothing gives the empty sequence.  The call fails exactly when
    the tool rejected with a value that is not an Error or has no [stdout]
    property, and then with that very value. *)
Theorem getUnixProcesses_recovery (os : OS) :
  (∀ e os1 out, execAsync lsof_command os = (Throw e, os1) →
     is_Error e = true → stdout_prop e = Some (Some out) →
     getUnixProcesses execAsync os = (Ok (parseUnixOutput out), os1))
  ∧ (∀ e os1, execAsync lsof_command os = (Throw e, os1) →
       is_Error e = true → is_Some (stdout_prop e) → captured_stdout e = "" →
       getUnixProcesses execAsync os = (Ok [], os1))
  ∧ (∀ e os1, getUnixProcesses execAsync os = (Throw e, os1)
       ↔ execAsync lsof_command os = (Throw e, os1)
         ∧ (is_Error e = false ∨ stdout_prop e = None)).
Proof.
  unfold getUnixProcesses, runCommand, bind, try_catch, recoverListing, ret, throw.
  split; [|split].
  - intros e os1 out -> -> ->. done.
  - intros e os1 -> -> [out Hout]. unfold captured_stdout. rewrite Hout.
    destruct out as [out|]; simpl; [intros ->|intros _]; done.
  - intros e os1. destruct (execAsync lsof_command os) as [[output|e'] os2].
    + split; [discriminate|]. by intros [? _].
    + destruct (is_Error e') eqn:He; destruct (stdout_prop e') as [out|] eqn:Hs.
      * split; [discriminate|]. intros [[= -> ->] [?|?]]; congruence.
      * split; [intros [= -> ->]; auto|]. by intros [[= -> ->] _].
      * split; [intros [= -> ->]; auto|]. by intros [[= -> ->] _].
      * split; [intros [= -> ->]; auto|]. by intros [[= -> ->] _].
Qed.

Local Abbreviation enrich := (enrichProcesses findProcess).

(** The [finally] block wins: after the lookups every pid that was looked
    up is mapped to the empty string. *)
Lemma resolveAll_details pids details os r details' os' :
  resolveAll findProcess pids details os = (r, details', os') →
  ∀ p, details' !! p = if decide (p ∈ pids) then Some "" else details !! p.
Proof.
  revert details os r details' os'.
  induction pids as [|q pids IH]; intros details os r details' os' H p;
    cbn [resolveAll] in H.
  - injection H as _ <- _. by rewrite decide_False by apply not_elem_of_nil.
  - unfold resolvePid in H. destruct (findProcess q os) as [found os1].
    destruct (resolveAll _ pids _ os1) as [[rs d2] os2] eqn:Hrest.
    injection H as _ <- _. rewrite (IH _ _ _ _ _ Hrest p).
    destruct (decide (p ∈ pids)) as [Hp|Hp].
    + rewrite decide_True; [done|by right].
    + destruct (decide (p = q)) as [->|Hne].
      * rewrite decide_True by left. by rewrite lookup_insert_eq.
      * rewrite decide_False by (intros [?|?]%elem_of_cons; done).
        rewrite lookup_insert_ne by done.
        destruct found as [[|detail ?]|?]; [done| |done].
        by rewrite lookup_insert_ne.
Qed.

Lemma resolveAll_Throw pids details os e details' os' :
  resolveAll findProcess pids details os = (Throw e, details', os') →
  ∃ p os0, p ∈ pids ∧ (findProcess p os0).1 = Throw e.
Proof.
  revert details os details' os'.
  induction pids as [|q pids IH]; intros details os details' os'; simpl; [done|].
  unfold resolvePid. destruct (findProcess q os) as [found os1] eqn:Hq.
  destruct (resolveAll _ pids _ os1) as [[rs d2] os2] eqn:Hrest.
  destruct found as [ms|e'].
  - intros [= -> _ _]. destruct (IH _ _ _ _ Hrest) as (p & os0 & ? & ?).
    exists p, os0. split; [by right|done].
  - intros [= -> _ _]. exists q, os. split; [left|by rewrite Hq].
Qed.

(** When the enrichment returns, it returns the input with the empty
    string as the command of every record that carried none. *)
Lemma enrichProcesses_Ok base os out os1 :
  enrich base os = (Ok out, os1) → out = blankCommand <$> base.
Proof.
  unfold enrichProcesses.
  destruct (resolveAll _ _ _ os) as [[r details] os2] eqn:Hres.
  destruct r as [[]|e]; [|discriminate]. intros [= <- _].
  apply list_fmap_ext. intros i item Hi.
  unfold enrichItem, blankCommand. destruct (truthy (command item)); [done|].
  f_equal. rewrite (resolveAll_details _ _ _ _ _ _ Hres (pid item)).
  rewrite lookup_empty, decide_True; [done|].
  apply elem_of_distinct, list_elem_of_fmap. exists item.
  split; [done|]. by eapply list_elem_of_lookup_2.
Qed.

Lemma enrichProcesses_Throw base os e os1 :
  enrich base os = (Throw e, os1) →
  ∃ p os0, p ∈ (pid <$> base) ∧ (findProcess p os0).1 = Throw e.
Proof.
  unfold enrichProcesses.
  destruct (resolveAll _ _ _ os) as [[r details] os2] eqn:Hres.
  destruct r as [[]|e']; [discriminate|]. intros [= -> _].
  destruct (resolveAll_Throw _ _ _ _ _ _ Hres) as (p & os0 & Hp & ?).
  exists p, os0. split; [|done]. by eapply distinct_from_subseteq.
Qed.

(** C10. The enrichment either rejects, with the error of a process-table
    lookup of one of the pids of the input, or returns a sequence of the
    same length in which the record at each position has the pid, port,
    protocol and address of the input record at that position, and is the
    input record itself when that one carried a non-empty command. *)
Theorem enrichProcesses_frame (base : list PortProcess) (os : OS) :
  match enrichProcesses findProcess base os with
  | (Ok out, _) =>
      length out = length base
      ∧ ∀ i item, base !! i = Some item →
          ∃ item', out !! i = Some item' ∧ same_listener item' item
                   ∧ (truthy (command item) = true → item' = item)
  | (Throw e, _) =>
      ∃ p os0, p ∈ (pid <$> base) ∧ (findProcess p os0).1 = Throw e
  end.
Proof.
  destruct (enrich base os) as [[out|e] os1] eqn:H.
  - apply enrichProcesses_Ok in H as ->. split; [by rewrite length_fmap|].
    intros i item Hi. exists (blankCommand item).
    rewrite list_lookup_fmap, Hi. split; [done|].
    unfold blankCommand, same_listener.
    destruct (truthy (command item)); [done|]. split; [done|discriminate].
  - by eapply enrichProcesses_Throw.
Qed.

Local Abbreviation killPort :=
  (killByPort win32 execAsync findProcess process_kill settle_order).
Local Abbreviation start := (startAttempts win32 execAsync process_kill).

(** The attempts are started for the matched records, in their order. *)
Lemma startAttempts_fst matches os attempts os1 :
  start matches os = (attempts, os1) → attempts.*1 = matches.
Proof.
  revert os attempts os1.
  induction matches as [|m matches IH]; intros os attempts os1; simpl.
  - by intros [= <- _].
  - destruct (terminateProcess _ _ _ _ os) as [r os2].
    destruct (start matches os2) as [rest os3] eqn:Hrest.
    intros [= <- _]. simpl. f_equal. by eapply IH.
Qed.

(** C3. Whatever the order in which the attempts settle, and whichever of
    them fail: when the initial [filterByPort] returns [matches], the
    termination by port returns an outcome, and there is one result per
    matched record (in their order) such that [success] holds exactly the
    records whose attempt resolved and [failed] exactly those whose attempt
    rejected, each as often as it was matched; together the two
    collections are a rearrangement of [matches]. *)
Theorem killByPort_partition (p : Z) (os os1 : OS) (matches : list PortProcess) :
  (∀ attempts, settle_order attempts ≡ₚ attempts) →
  filterByPort win32 execAsync findProcess p os = (Ok matches, os1) →
  ∃ out os2 (results : list (Settled unit)),
    killByPort win32 execAsync findProcess process_kill settle_order p os = (Ok out, os2)
    ∧ length results = length matches
    ∧ success out ≡ₚ (filter (λ a, resolved a.2) (zip matches results)).*1
    ∧ (failed out).*1 ≡ₚ (filter (λ a, ¬ resolved a.2) (zip matches results)).*1
    ∧ success out ++ (failed out).*1 ≡ₚ matches.
Proof.
  intros Horder Hfilter. unfold killByPort, bind. rewrite Hfilter.
  destruct (start matches os1) as [attempts os2] eqn:Hstart.
  pose proof (startAttempts_fst _ _ _ _ Hstart) as Hfst.
  destruct (settle_all (settle_order attempts) (mkOutcome [] [])) as [Hs Hf].
  simpl in Hs, Hf.
  assert (zip matches (attempts.*2) = attempts) as Hzip.
  { rewrite <- Hfst. apply zip_fst_snd. }
  eexists _, os2, (attempts.*2). split; [done|].
  rewrite Hzip, Hs, Hf.
  split; [by rewrite <- Hfst, !length_fmap|].
  split; [by rewrite (Horder attempts)|].
  split; [by rewrite (Horder attempts)|].
  by rewrite (Horder attempts), <- fmap_app, filter_app_complement, Hfst.
Qed.

Local Abbreviation fetch := (fetchProcesses win32 execAsync findProcess).
Local Abbreviation render := (renderOnce win32 execAsync findProcess).

(** A render whose read failed reports the error and remembers what it
    remembered before. *)
Lemma renderOnce_failed_read options seenKeys os os1 e :
  fetch options os = (Throw e, os1) →
  render options seenKeys os = (mkRendered [message e] seenKeys, os1).
Proof. intros Hfetch. unfold renderOnce. by rewrite Hfetch. Qed.


End Properties.

(** ** The operations on the small machine *)

(** C1, on the code. A listener without a command (as the Windows parser
    makes them) whose pid the process table resolves to "node server.js"
    comes back with the empty string as its command, not with the resolved
    command; a listener whose pid the table does not know comes back with
    the empty string too, not with an absent command; and a lookup that
    rejects makes the whole enrichment reject. *)
Theorem enrichProcesses_blanks_every_command :
  let known := mkPortProcess 4821 8080 "TCP" "0.0.0.0" None in
  let gone := mkPortProcess 77 8081 "TCP" "0.0.0.0" None in
  demo_findProcess 4821 demo_os
    = (Ok [mkProcessInfo (Some "node server.js") (Some "node")], demo_os)
  ∧ demo_findProcess 77 demo_os = (Ok [], demo_os)
  ∧ enrichProcesses demo_findProcess [known; gone] demo_os
    = (Ok [mkPortProcess 4821 8080 "TCP" "0.0.0.0" (Some "");
           mkPortProcess 77 8081 "TCP" "0.0.0.0" (Some "")], demo_os)
  ∧ enrichProcesses failing_findProcess [known; gone] demo_os
    = (Throw (demo_error "EAGAIN"), demo_os).
Proof. repeat split; vm_compute; reflexivity. Qed.

(** C2, as stated, fails: the tool failed and captured nothing, and the call
    does not propagate an error (it returns the empty sequence). *)
Lemma getUnixProcesses_silent_failure_returns :
  failed_without_output (silent_exec lsof_command tt).1
  ∧ (getUnixProcesses silent_exec tt).1 = Ok []
  ∧ ¬ (propagates (getUnixProcesses silent_exec tt).1
       ↔ failed_without_output (silent_exec lsof_command tt).1).
Proof.
  split; [reflexivity|]. split; [reflexivity|].
  intros [_ H]. apply H. reflexivity.
Qed.

Lemma getUnixProcesses_recovery_witness :
  getUnixProcesses partial_exec tt
    = (Ok [mkPortProcess 4821 3000 "TCP" "*" (Some "node")], tt)
  ∧ getUnixProcesses silent_exec tt = (Ok [], tt).
Proof.
  destruct (getUnixProcesses_recovery partial_exec tt) as (H1 & _ & _).
  destruct (getUnixProcesses_recovery silent_exec tt) as (_ & H2 & _).
  split.
  - rewrite (H1 partial_failure tt _ eq_refl eq_refl eq_refl).
    vm_compute. reflexivity.
  - apply (H2 silent_failure tt); [reflexivity|reflexivity|by eexists|reflexivity].
Defined.

Lemma listings_sorted_witness :
  StronglySorted le_port_pid
    [mkPortProcess 551 3000 "TCP" "::1" (Some "nginx");
     mkPortProcess 4821 3000 "TCP" "*" (Some "node");
     mkPortProcess 9000 6379 "TCP" "127.0.0.1" (Some "redis")]
  ∧ StronglySorted le_port_pid
      [mkPortProcess 551 3000 "TCP" "::1" (Some "nginx");
       mkPortProcess 4821 3000 "TCP" "*" (Some "node")]
  ∧ StronglySorted le_port_pid
      [mkPortProcess 9000 6379 "TCP" "127.0.0.1" (Some "redis")].
Proof.
  destruct (listings_sorted false demo_exec demo_findProcess demo_os)
    as (H1 & H2 & H3).
  split; [|split].
  - apply (H1 _ demo_os). vm_compute. reflexivity.
  - apply (H2 3000 _ demo_os). vm_compute. reflexivity.
  - apply (H3 4000 7000 _ demo_os). vm_compute. reflexivity.
Defined.

Lemma filterByPortRange_spec_witness :
  filterByPortRange false demo_exec demo_findProcess 5000 4000 demo_os = (Ok [], demo_os)
  ∧ filterByPortRange false demo_exec demo_findProcess 3000 4000 demo_os
    = (Ok [mkPortProcess 551 3000 "TCP" "::1" (Some "nginx");
           mkPortProcess 4821 3000 "TCP" "*" (Some "node")], demo_os).
Proof.
  split.
  - apply (proj1 (filterByPortRange_spec false demo_exec demo_findProcess
                    5000 4000 demo_os)).
    lia.
  - rewrite (proj2 (filterByPortRange_spec false demo_exec demo_findProcess
                      3000 4000 demo_os)) by lia.
    vm_compute. reflexivity.
Defined.

Lemma terminate_absent_is_success_witness :
  terminateProcess false demo_exec demo_kill 12345 demo_os = (Ok tt, demo_os)
  ∧ killByPid false demo_exec demo_kill 551 demo_os
    = (Throw (demo_error "EPERM"), demo_os).
Proof.
  destruct (terminate_absent_is_success demo_exec demo_kill 12345 demo_os) as [H1 _].
  destruct (terminate_absent_is_success demo_exec demo_kill 551 demo_os) as [_ H2].
  split.
  - apply (H1 (demo_error "ESRCH")); reflexivity.
  - apply H2. split; [reflexivity|]. vm_compute. discriminate.
Defined.

Lemma enrichProcesses_frame_witness :
  enrichProcesses demo_findProcess demo_matches demo_os = (Ok demo_matches, demo_os)
  ∧ length demo_matches = 2%nat
  ∧ ∃ item', demo_matches !! 1%nat = Some item'
      ∧ same_listener item' (mkPortProcess 4821 3000 "TCP" "*" (Some "node"))
      ∧ item' = mkPortProcess 4821 3000 "TCP" "*" (Some "node").
Proof.
  pose proof (enrichProcesses_frame demo_findProcess demo_matches demo_os) as H.
  assert (enrichProcesses demo_findProcess demo_matches demo_os
          = (Ok demo_matches, demo_os)) as Hrun by (vm_compute; reflexivity).
  rewrite Hrun in H. destruct H as [Hlen Hitems]. split; [done|]. split; [done|].
  destruct (Hitems 1%nat _ eq_refl) as (item' & Hat & Hsame & Hkeep).
  exists item'. split; [done|]. split; [done|]. by apply Hkeep.
Defined.

Lemma killByPort_partition_witness :
  ∃ out os2 (results : list (Settled unit)),
    killByPort false demo_exec demo_findProcess demo_kill demo_order 3000 demo_os
      = (Ok out, os2)
    ∧ length results = length demo_matches
    ∧ success out ≡ₚ (filter (λ a, resolved a.2) (zip demo_matches results)).*1
    ∧ (failed out).*1 ≡ₚ (filter (λ a, ¬ resolved a.2) (zip demo_matches results)).*1
    ∧ success out ++ (failed out).*1 ≡ₚ demo_matches.
Proof.
  apply (killByPort_partition false demo_exec demo_findProcess demo_kill demo_order
           3000 demo_os demo_os demo_matches).
  - intros attempts. reflexivity.
  - vm_compute. reflexivity.
Defined.


(** C5, as stated, fails: the first column [tcp] is neither [TCP] nor [UDP],
    and the line is kept. *)
Lemma parseWindowsLine_keeps_lower_case_protocol :
  columns "tcp 0.0.0.0:8080 0.0.0.0:0 LISTENING 9912"
    = ["tcp"; "0.0.0.0:8080"; "0.0.0.0:0"; "LISTENING"; "9912"]
  ∧ parseWindowsLine "tcp 0.0.0.0:8080 0.0.0.0:0 LISTENING 9912"
    = [mkPortProcess 9912 8080 "TCP" "0.0.0.0" None]
  ∧ ¬ (∀ rawLine proto rest, columns rawLine = proto :: rest →
         proto ≠ "TCP" → proto ≠ "UDP" → parseWindowsLine rawLine = []).
Proof.
  split; [reflexivity|]. split; [reflexivity|]. intros H.
  assert (parseWindowsLine "tcp 0.0.0.0:8080 0.0.0.0:0 LISTENING 9912" = []) as Hnone.
  { apply (H _ "tcp" ["0.0.0.0:8080"; "0.0.0.0:0"; "LISTENING"; "9912"]);
      [reflexivity|discriminate|discriminate]. }
  discriminate Hnone.
Qed.

Lemma parseWindowsLine_spec_witness :
  parseWindowsLine "  Proto  Local Address  Foreign Address  State  PID" = []
  ∧ (∃ address, unbracketed "127.0.0.1" address
       ∧ parseWindowsLine "  tcp    127.0.0.1:80    0.0.0.0:0    LISTENING    42"
         = [mkPortProcess 42 80 "TCP" address None])
  ∧ (∃ address, unbracketed "127.0.0.1" address
       ∧ parseWindowsLine "  TCP    127.0.0.1:80    10.0.0.7:5544    TIME_WAIT    42" = [])
  ∧ (∃ address, unbracketed "[::]" address
       ∧ parseWindowsLine "  UDP    [::]:5353    *:*    1234"
         = [mkPortProcess 1234 5353 "UDP" address None]).
Proof.
  split; [|split; [|split]].
  - apply (proj1 (parseWindowsLine_spec _) "Proto"
             ["Local"; "Address"; "Foreign"; "Address"; "State"; "PID"]);
      [reflexivity|discriminate|discriminate].
  - apply (proj1 (proj2 (parseWindowsLine_spec _))
             "tcp" "127.0.0.1" "80" "0.0.0.0:0" "LISTENING" "42" []);
      first [reflexivity | by vm_compute].
  - apply (proj1 (proj2 (parseWindowsLine_spec _))
             "TCP" "127.0.0.1" "80" "10.0.0.7:5544" "TIME_WAIT" "42" []);
      first [reflexivity | by vm_compute].
  - apply (proj1 (proj2 (proj2 (parseWindowsLine_spec _)))
             "UDP" "[::]" "5353" "*:*" "1234" []);
      first [reflexivity | by vm_compute].
Defined.

Lemma parseUnixLine_keeps_numeral_prefix :
  columns "node 12abc app 23u IPv4 0x1 0t0 TCP 127.0.0.1:3000 (LISTEN)" !! 1%nat
    = Some "12abc"
  ∧ is_decimal "12abc" = false
  ∧ parseUnixLine "node 12abc app 23u IPv4 0x1 0t0 TCP 127.0.0.1:3000 (LISTEN)"
    = [mkPortProcess 12 3000 "TCP" "127.0.0.1" (Some "node")]
  ∧ ¬ (∀ line token, columns line !! 1%nat = Some token →
         is_decimal token = false → parseUnixLine line = []).
Proof.
  split; [reflexivity|]. split; [reflexivity|]. split; [by vm_compute|]. intros H.
  assert (parseUnixLine "node 12abc app 23u IPv4 0x1 0t0 TCP 127.0.0.1:3000 (LISTEN)"
          = []) as Hnone.
  { by apply (H _ "12abc"). }
  vm_compute in Hnone. discriminate Hnone.
Qed.

Lemma parseUnixLine_spec_witness :
  (∃ pre host digits post address,
     "node 4821 ... TCP *:3000 (LISTEN)" = pre +:+ host +:+ ":" +:+ digits +:+ post
     ∧ JS.is_empty host = false
     ∧ all_chars is_host_char host = true
     ∧ is_decimal digits = true
     ∧ starts_with_digit post = false
     ∧ match_unix_address "node 4821 ... TCP *:3000 (LISTEN)" = Some (host, digits)
     ∧ unbracketed host address
     ∧ parseUnixLine "node 4821 ... TCP *:3000 (LISTEN)"
       = [mkPortProcess 4821 (JS.round_double (decimal_value digits))
            (unix_protocol "node 4821 ... TCP *:3000 (LISTEN)") address
            (columns "node 4821 ... TCP *:3000 (LISTEN)" !! 0%nat)])
  ∧ parseUnixLine "COMMAND PID USER FD TYPE DEVICE SIZE/OFF NODE NAME" = []
  ∧ parseUnixLine "node" = []
  ∧ parseUnixLine "node 4821 app 23u IPv4 0x1 0t0 TCP (LISTEN)" = [].
Proof.
  split; [|split; [|split]].
  - apply (proj1 (parseUnixLine_spec "node 4821 ... TCP *:3000 (LISTEN)")
             "4821" 4821); [reflexivity| |by vm_compute|].
    + exists "", "4821", "". split; [reflexivity|]. split; [by left|]. by split.
    + exists "node 4821 ... TCP ", "*", "3000", " (LISTEN)". by repeat split.
  - apply (proj1 (proj2 (proj2 (proj2 (proj2
             (parseUnixLine_spec "COMMAND PID USER FD TYPE DEVICE SIZE/OFF NODE NAME")))))
             "PID"); [reflexivity|].
    intros n (sign & digits & rest & Heq & Hsign & Hd & _).
    destruct digits as [|d digits]; [done|].
    apply andb_true_iff in Hd as [_ [Hdigit _]%andb_true_iff].
    destruct Hsign as [[-> _]|[[-> _]|[-> _]]]; try done.
    injection Heq as <- _. done.
  - by apply (proj1 (proj2 (proj2 (proj2 (parseUnixLine_spec "node"))))).
  - apply (proj1 (proj2 (proj2 (proj2 (proj2 (proj2 (proj2
             (parseUnixLine_spec "node 4821 app 23u IPv4 0x1 0t0 TCP (LISTEN)")))))))).
    intros Hpair. apply match_unix_address_complete in Hpair. by destruct Hpair.
Defined.

(** ** Further properties of the parsers *)

(** X1. [parseAddress] accepts exactly the tokens made of a host without line
    terminator, a colon and a decimal numeral, split at that (last) colon,
    and returns nothing for every other token.  The address returned is the
    host without its enclosing brackets: the text between them when the host
    begins with an opening and ends with a closing square bracket, the host
    itself otherwise.  The port returned is the double nearest to the
    number the numeral denotes: that number below 2^53, [Infinity] from
    2^1024 on; the numeral 9007199254740993 is read as 9007199254740992. *)
Theorem parseAddress_iff (token address : string) (p : Z) :
  (parseAddress token = Some (address, p)
   ↔ ∃ host digits,
       token = host +:+ ":" +:+ digits
       ∧ all_chars (λ c, negb (JS.is_line_terminator c)) host = true
       ∧ is_decimal digits = true
       ∧ unbracketed host address
       ∧ p = JS.round_double (decimal_value digits))
  ∧ (∀ digits, is_decimal digits = true →
       (exact_integer (decimal_value digits) →
          JS.round_double (decimal_value digits) = decimal_value digits)
       ∧ (JS.infinity ≤ decimal_value digits →
            JS.round_double (decimal_value digits) = JS.infinity))
  ∧ parseAddress "x:9007199254740993" = Some ("x", 9007199254740992)
  ∧ parseAddress "[::1]:3000" = Some ("::1", 3000)
  ∧ parseAddress "[::1:3000" = Some ("[::1", 3000)
  ∧ parseAddress "3000" = None.
Proof.
  split; [|split; [|by vm_compute]].
  - rewrite parseAddress_Some. split.
    + intros (host & digits & ? & ? & ? & ? & ?). exists host, digits.
      by rewrite unbracketed_strip.
    + intros (host & digits & ? & ? & ? & ? & ?). exists host, digits.
      by rewrite <- unbracketed_strip.
  - intros digits Hd. split.
    + apply round_double_exact.
    + apply round_double_overflow.
Qed.

(** X2. An IPv6 literal in brackets comes back without them: for a host
    without line terminator and a decimal numeral below 2^53,
    [parseAddress] of [[host]:digits] is the host itself and the number of
    the numeral. *)
Theorem parseAddress_unwraps_brackets (host digits : string) :
  all_chars (λ c, negb (JS.is_line_terminator c)) host = true →
  is_decimal digits = true →
  exact_integer (decimal_value digits) →
  parseAddress (("[" +:+ host +:+ "]") +:+ ":" +:+ digits)
  = Some (host, decimal_value digits).
Proof.
  intros Hhost Hdigits Hexact. unfold parseAddress.
  assert (all_chars (λ c, negb (JS.is_line_terminator c)) ("[" +:+ host +:+ "]") = true)
    as Hwrapped.
  { rewrite append_cons, append_empty. cbn [all_chars].
    rewrite all_chars_append, Hhost. reflexivity. }
  rewrite (match_host_port_wf _ _ Hwrapped Hdigits), (parseInt_decimal _ Hdigits Hexact).
  by rewrite strip_brackets_wrapped.
Qed.

Lemma parseAddress_unwraps_brackets_witness :
  parseAddress "[fe80::1]:8080" = Some ("fe80::1", 8080).
Proof.
  apply (parseAddress_unwraps_brackets "fe80::1" "8080");
    first [reflexivity | by vm_compute].
Defined.

Lemma parseWindowsLine_records rawLine r :
  In r (parseWindowsLine rawLine) →
  (protocol r = "TCP" ∨ protocol r = "UDP") ∧ command r = None ∧ 0 ≤ port r.
Proof.
  unfold parseWindowsLine. destruct (_ || _ || _); [done|].
  destruct (_ <? 4)%nat; [done|].
  set (proto := JS.toUpperCase _).
  assert (∀ fields : option (option string * option string),
    (proto = "TCP" ∨ proto = "UDP" ∨ fields = None) →
    In r match fields with
         | None => []
         | Some (localAddress, pidText) =>
             match JS.parseInt_value pidText with
             | None => []
             | Some n =>
                 if negb (JS.isFinite n) then []
                 else
                   match parseAddress (default "" localAddress) with
                   | None => []
                   | Some (a, p) => [mkPortProcess n p proto a None]
                   end
             end
         end →
    (protocol r = "TCP" ∨ protocol r = "UDP") ∧ command r = None ∧ 0 ≤ port r) as H.
  { intros [[l t]|] Hproto; [|done].
    destruct (JS.parseInt_value t); [|done].
    destruct (negb _); [done|].
    destruct (parseAddress _) as [[a p]|] eqn:Ha; [|done].
    intros [<-|[]]. simpl.
    apply parseAddress_Some in Ha as (host & digits & _ & _ & Hd & _ & ->).
    split; [destruct Hproto as [?|[?|?]]; auto; done|].
    split; [done|]. by apply round_double_nonneg, decimal_value_nonneg. }
  apply H. destruct (String.eqb_spec proto "TCP"); [by left|].
  destruct (String.eqb_spec proto "UDP"); [by right; left|]. by right; right.
Qed.

Lemma length_concat_le {A B} (f : A → list B) (l : list A) :
  (∀ x, length (f x) ≤ 1)%nat → (length (concat (f <$> l)) ≤ length l)%nat.
Proof.
  intros Hf. induction l as [|x l IH]; simpl; [done|].
  rewrite length_app. specialize (Hf x). unfold fmap in IH. lia.
Qed.

(** X3. Whatever the Windows-style listing text, every record the parser
    returns has protocol TCP or UDP, no command, and a port that is not
    negative; and there are at most as many records as lines. *)
Theorem parseWindowsOutput_records (text : string) :
  Forall (λ r, (protocol r = "TCP" ∨ protocol r = "UDP")
               ∧ command r = None ∧ 0 ≤ port r)
    (parseWindowsOutput text)
  ∧ (length (parseWindowsOutput text) ≤ length (JS.split_lines text))%nat.
Proof.
  split.
  - apply Forall_forall. intros r Hr. apply list_elem_of_In in Hr.
    unfold parseWindowsOutput in Hr. apply in_concat in Hr as (l & Hl & Hr).
    apply in_map_iff in Hl as (line & <- & _).
    by eapply parseWindowsLine_records.
  - unfold parseWindowsOutput. apply length_concat_le. intros line.
    unfold parseWindowsLine. repeat case_match; simpl; lia.
Qed.

Lemma protocol_here_upper s m :
  protocol_here s = Some m → JS.toUpperCase m = "TCP" ∨ JS.toUpperCase m = "UDP".
Proof.
  unfold protocol_here. destruct s as [|a [|b [|c rest]]]; try done.
  destruct (String.eqb_spec (JS.toUpperCase (String a (String b (String c "")))) "TCP")
    as [Ht|_].
  - destruct (negb _); [|done]. intros [= <-]. by left.
  - destruct (String.eqb_spec (JS.toUpperCase (String a (String b (String c "")))) "UDP")
      as [Hu|_]; [|done].
    destruct (negb _); [|done]. intros [= <-]. by right.
Qed.

Lemma match_protocol_upper prev s m :
  match_protocol prev s = Some m →
  JS.toUpperCase m = "TCP" ∨ JS.toUpperCase m = "UDP".
Proof.
  revert prev. induction s as [|c s IH]; intros prev; [done|].
  cbn [match_protocol].
  destruct (if prev then None else protocol_here (String c s)) as [m'|] eqn:Hhere.
  - intros [= <-]. destruct prev; [done|]. by eapply protocol_here_upper.
  - apply IH.
Qed.

Lemma unix_protocol_values line :
  unix_protocol line = "TCP" ∨ unix_protocol line = "UDP".
Proof.
  unfold unix_protocol. destruct (match_protocol false line) as [m|] eqn:Hm.
  - by eapply match_protocol_upper.
  - by left.
Qed.

Lemma trimStart_head s c r : JS.trimStart s = String c r → JS.is_space c = false.
Proof.
  induction s as [|a s IH]; simpl; [done|].
  destruct (JS.is_space a) eqn:Ha; [done|]. by intros [= <- _].
Qed.

(** A trimmed string is empty or starts with a character that is not white
    space. *)
Lemma trim_head s c r : JS.trim s = String c r → JS.is_space c = false.
Proof.
  unfold JS.trim. destruct (JS.trimStart s) as [|a t] eqn:Hs; [done|].
  pose proof (trimStart_head _ _ _ Hs) as Ha. simpl. rewrite Ha. simpl.
  by intros [= <- _].
Qed.

(** The first column of a line that is not blank is not empty. *)
Lemma columns_first line :
  JS.is_empty (JS.trim line) = false →
  ∃ t ts, columns line = t :: ts ∧ JS.is_empty t = false.
Proof.
  unfold columns, JS.split_ws.
  destruct (JS.trim line) as [|c r] eqn:Ht; [done|]. intros _.
  cbn [JS.split_ws_from]. rewrite (trim_head _ _ _ Ht).
  destruct (split_ws_from_cons false r) as (t & ts & ->). simpl. eauto.
Qed.

Lemma parseUnixLine_records line r :
  In r (parseUnixLine line) →
  (protocol r = "TCP" ∨ protocol r = "UDP")
  ∧ truthy (command r) = true ∧ 0 ≤ port r.
Proof.
  unfold parseUnixLine.
  destruct (JS.is_empty (JS.trim line)) eqn:Hne; [done|].
  fold (columns line). fold (unix_protocol line).
  destruct (JS.parseInt_value _); [|done].
  destruct (negb _); [done|].
  destruct (match_unix_address line) as [[host digits]|] eqn:Hm; [|done].
  destruct (match_unix_address_sound _ _ _ Hm) as [Hd _].
  rewrite (parseInt_numeral _ Hd). intros [<-|[]]. simpl.
  split; [apply unix_protocol_values|].
  split; [|by apply round_double_nonneg, decimal_value_nonneg].
  destruct (columns_first _ Hne) as (t & ts & -> & Ht). simpl. by rewrite Ht.
Qed.

Lemma parseUnixOutput_Forall text :
  Forall (λ r, (protocol r = "TCP" ∨ protocol r = "UDP")
               ∧ truthy (command r) = true ∧ 0 ≤ port r)
    (parseUnixOutput text).
Proof.
  apply Forall_forall. intros r Hr. apply list_elem_of_In in Hr.
  unfold parseUnixOutput in Hr. apply in_concat in Hr as (l & Hl & Hr).
  apply in_map_iff in Hl as (line & <- & _).
  by eapply parseUnixLine_records.
Qed.

(** X4. Whatever the Unix-style listing text, every record the parser returns
    has protocol TCP or UDP, a command that is not empty (the first column
    of its line) and a port that is not negative; and there are fewer
    records than lines, since the first line is never parsed. *)
Theorem parseUnixOutput_records (text : string) :
  Forall (λ r, (protocol r = "TCP" ∨ protocol r = "UDP")
               ∧ truthy (command r) = true ∧ 0 ≤ port r)
    (parseUnixOutput text)
  ∧ (length (parseUnixOutput text) ≤ length (JS.split_lines text) - 1)%nat.
Proof.
  split.
  - apply parseUnixOutput_Forall.
  - unfold parseUnixOutput.
    etrans; [apply length_concat_le|].
    + intros line. unfold parseUnixLine. repeat case_match; simpl; lia.
    + destruct (JS.split_lines text); simpl; lia.
Qed.

Lemma blankCommand_truthy r : truthy (command r) = true → blankCommand r = r.
Proof. unfold blankCommand. by intros ->. Qed.

Lemma blankCommand_unix text :
  blankCommand <$> parseUnixOutput text = parseUnixOutput text.
Proof.
  pose proof (parseUnixOutput_Forall text) as Hall.
  induction Hall as [|r l (_ & Hr & _) _ IH]; [done|].
  rewrite fmap_cons, IH. by rewrite (blankCommand_truthy _ Hr).
Qed.

(** ** Further properties of the listing *)

(** The stable sort keeps the records of one port and pid in their order. *)
Lemma sort_insert_filter (p q : Z) x l :
  StronglySorted le_port_pid l →
  filter (λ r, port r = p ∧ pid r = q) (sort_insert x l)
  = filter (λ r, port r = p ∧ pid r = q) l
    ++ filter (λ r, port r = p ∧ pid r = q) [x].
Proof.
  set (K := λ r : PortProcess, port r = p ∧ pid r = q).
  induction 1 as [|y l Hs IH Hall]; [by rewrite app_nil_l|].
  cbn [sort_insert].
  destruct (Z.ltb_spec (compareProcesses x y) 0) as [Hlt|Hge].
  - destruct (decide (K x)) as [[Hp Hq]|Hx].
    + rewrite (filter_cons_True K x (y :: l)), (filter_cons_True K x []) by done.
      assert (filter K (y :: l) = []) as ->; [|done].
      assert (Forall (λ z, ¬ K z) (y :: l)) as Hnone.
      { constructor.
        - unfold K, compareProcesses in *.
          destruct (Z.eqb_spec (port x) (port y)); lia.
        - eapply Forall_impl; [exact Hall|]. intros z Hyz.
          unfold K, compareProcesses, le_port_pid in *.
          destruct (Z.eqb_spec (port x) (port y)); lia. }
      clear -Hnone. induction Hnone as [|z l' Hz _ IHl]; [done|].
      by rewrite filter_cons_False.
    + rewrite (filter_cons_False K x (y :: l)), (filter_cons_False K x []) by done.
      by rewrite filter_nil, app_nil_r.
  - rewrite (filter_cons K y (sort_insert x l)), (filter_cons K y l), IH.
    by destruct (decide (K y)).
Qed.

Lemma sortProcesses_filter (p q : Z) l :
  filter (λ r, port r = p ∧ pid r = q) (sortProcesses l)
  = filter (λ r, port r = p ∧ pid r = q) l.
Proof.
  set (K := λ r : PortProcess, port r = p ∧ pid r = q).
  unfold sortProcesses.
  assert (∀ acc, Sorted le_port_pid acc →
    filter K (fold_left (λ acc x, sort_insert x acc) l acc)
    = filter K acc ++ filter K l) as H.
  { induction l as [|x l IH]; intros acc Hacc; cbn [fold_left].
    - by rewrite filter_nil, app_nil_r.
    - rewrite IH by (by apply sort_insert_Sorted).
      assert (StronglySorted le_port_pid acc) as Hss.
      { apply Sorted_StronglySorted; [|done].
        intros a b c. apply le_port_pid_trans. }
      pose proof (sort_insert_filter p q x acc Hss) as Hins. fold K in Hins.
      rewrite Hins, <- app_assoc. f_equal.
      rewrite (filter_cons K x l), (filter_cons K x []), filter_nil.
      by destruct (decide (K x)). }
  rewrite H by constructor. by rewrite filter_nil.
Qed.

Lemma settle_all_exact settled out :
  fold_left settleAttempt settled out
  = mkOutcome (success out ++ (filter (λ a, resolved a.2) settled).*1)
      (failed out ++ omap attemptError settled).
Proof.
  revert out. induction settled as [|[m r] settled IH]; intros out.
  - simpl. rewrite !app_nil_r. by destruct out.
  - cbn [fold_left]. rewrite IH, filter_cons. unfold settleAttempt, attemptError.
    destruct r as [u|e]; cbn [fst snd resolved success failed omap list_omap].
    + rewrite decide_True by done. rewrite fmap_cons. cbn [fst].
      by rewrite <- app_assoc.
    + rewrite decide_False by (unfold Is_true; tauto).
      by rewrite <- app_assoc.
Qed.

Section Listing.
Context {OS : Type}.
Variable win32 : bool.
Variable execAsync : string → Async (OS:=OS) string.
Variable findProcess : Z → Async (OS:=OS) (list ProcessInfo).
Variable process_kill : Z → Async (OS:=OS) unit.
Variable settle_order :
  list (PortProcess * Settled unit) → list (PortProcess * Settled unit).

Local Abbreviation discover :=
  (if win32 then getWindowsProcesses execAsync else getUnixProcesses execAsync).

Lemma listListeningProcesses_Ok os l os' :
  listListeningProcesses win32 execAsync findProcess os = (Ok l, os') →
  ∃ base os1,
    discover os = (Ok base, os1)
    ∧ enrichProcesses findProcess base os1 = (Ok (blankCommand <$> base), os')
    ∧ l = sortProcesses (blankCommand <$> base).
Proof.
  unfold listListeningProcesses.
  intros (base & os1 & Hbase & (enriched & os2 & Henrich & H)%bind_Ok)%bind_Ok.
  unfold ret in H. injection H as <- <-.
  pose proof (enrichProcesses_Ok _ _ _ _ _ Henrich) as ->.
  by exists base, os1.
Qed.

(** X5. The listing holds exactly the records of the discovery, each once:
    a sequence [listListeningProcesses] returns is a rearrangement of the
    discovered records (with the empty command on those that carried none),
    of the same length. *)
Theorem listing_rearranges_discovery (os os' : OS) (l : list PortProcess) :
  listListeningProcesses win32 execAsync findProcess os = (Ok l, os') →
  ∃ base os1,
    (if win32 then getWindowsProcesses execAsync else getUnixProcesses execAsync) os
      = (Ok base, os1)
    ∧ l ≡ₚ blankCommand <$> base
    ∧ length l = length base.
Proof.
  intros (base & os1 & Hbase & _ & ->)%listListeningProcesses_Ok.
  exists base, os1. split; [done|].
  split; [apply sortProcesses_Permutation|].
  by rewrite (sortProcesses_Permutation _), length_fmap.
Qed.

(** X6. The sort of the listing is stable: the records of one port and one
    pid (a process listening on the same port number over several sockets)
    come in the order the discovery gave them. *)
Theorem listing_is_stable (os os' : OS) (l : list PortProcess) (p q : Z) :
  listListeningProcesses win32 execAsync findProcess os = (Ok l, os') →
  ∃ base os1,
    (if win32 then getWindowsProcesses execAsync else getUnixProcesses execAsync) os
      = (Ok base, os1)
    ∧ filter (λ r, port r = p ∧ pid r = q) l
      = filter (λ r, port r = p ∧ pid r = q) (blankCommand <$> base).
Proof.
  intros (base & os1 & Hbase & _ & ->)%listListeningProcesses_Ok.
  exists base, os1. split; [done|]. apply sortProcesses_filter.
Qed.

(** X7. On the Unix path the enrichment changes nothing: every record of the
    Unix parser carries a command, so a sequence [listListeningProcesses]
    returns there is the stable sort of the parsed records themselves. *)
Theorem unix_listing_is_sorted_parse (os os' : OS) (l : list PortProcess) :
  listListeningProcesses false execAsync findProcess os = (Ok l, os') →
  ∃ text os1,
    getUnixProcesses execAsync os = (Ok (parseUnixOutput text), os1)
    ∧ enrichProcesses findProcess (parseUnixOutput text) os1
      = (Ok (parseUnixOutput text), os')
    ∧ l = sortProcesses (parseUnixOutput text).
Proof.
  unfold listListeningProcesses.
  intros (base & os1 & Hbase & (enriched & os2 & Henrich & H)%bind_Ok)%bind_Ok.
  unfold ret in H. injection H as <- <-.
  pose proof Hbase as Hparse. unfold getUnixProcesses in Hparse.
  apply bind_Ok in Hparse as (text & os3 & _ & Hret).
  unfold ret in Hret. injection Hret as <- _.
  pose proof (enrichProcesses_Ok _ _ _ _ _ Henrich) as Heq.
  rewrite blankCommand_unix in Heq. subst enriched.
  by exists text, os1.
Qed.

(** X8. The Windows path has no recovery: when the listing tool rejects, the
    whole listing rejects with that value, whether or not the rejection
    carries captured output, and no process-table lookup is made. *)
Theorem windows_listing_propagates (os os1 : OS) (e : Thrown) :
  execAsync netstat_command os = (Throw e, os1) →
  getWindowsProcesses execAsync os = (Throw e, os1)
  ∧ listListeningProcesses true execAsync findProcess os = (Throw e, os1).
Proof.
  intros Hexec.
  unfold listListeningProcesses, getWindowsProcesses, runCommand, bind.
  by rewrite Hexec.
Qed.

(** X9. A range whose two bounds are the same port is the filter by that
    port: [filterByPortRange p p] and [filterByPort p] return the same. *)
Theorem filterByPortRange_point (p : Z) (os : OS) :
  filterByPortRange win32 execAsync findProcess p p os
  = filterByPort win32 execAsync findProcess p os.
Proof.
  unfold filterByPortRange, filterByPort.
  destruct (Z.gtb_spec p p) as [?|_]; [lia|]. unfold bind, ret.
  destruct (listListeningProcesses _ _ _ os) as [[l|e] os1]; [|done].
  do 2 f_equal. apply list_filter_iff. intros r. lia.
Qed.

(** X10. A termination by port fails only as its discovery fails:
    [killByPort] rejects exactly when the initial [filterByPort] rejects,
    with the same value and in the same state; no failure of a termination
    attempt makes it reject. *)
Theorem killByPort_rejects_iff (p : Z) (os os' : OS) (e : Thrown) :
  killByPort win32 execAsync findProcess process_kill settle_order p os
    = (Throw e, os')
  ↔ filterByPort win32 execAsync findProcess p os = (Throw e, os').
Proof.
  unfold killByPort, bind.
  destruct (filterByPort _ _ _ p os) as [[matches|e1] os1].
  - destruct (startAttempts _ _ _ matches os1) as [attempts os2].
    split; intros; discriminate.
  - split; by intros [= -> ->].
Qed.

(** X11. When no listener is found on the port, the termination by port
    returns the empty outcome, and leaves the machine as the discovery left
    it: no signal is sent and no tool is run. *)
Theorem killByPort_no_listener (p : Z) (os os1 : OS) :
  (∀ attempts, settle_order attempts ≡ₚ attempts) →
  filterByPort win32 execAsync findProcess p os = (Ok [], os1) →
  killByPort win32 execAsync findProcess process_kill settle_order p os
    = (Ok (mkOutcome [] []), os1).
Proof.
  intros Horder Hfilter. unfold killByPort, bind. rewrite Hfilter.
  cbn [startAttempts]. by rewrite (proj1 (Permutation_nil_r _) (Horder [])).
Qed.

(** X12. When the attempts settle in the order they were started (as they
    do where the signal is sent in-process), [success] lists the records
    whose attempt resolved and [failed] those whose attempt rejected, each
    with the error of its own attempt, both in the order of the listing. *)
Theorem killByPort_in_order (p : Z) (os os1 os2 : OS)
    (matches : list PortProcess) (attempts : list (PortProcess * Settled unit)) :
  (∀ l, settle_order l = l) →
  filterByPort win32 execAsync findProcess p os = (Ok matches, os1) →
  startAttempts win32 execAsync process_kill matches os1 = (attempts, os2) →
  killByPort win32 execAsync findProcess process_kill settle_order p os
    = (Ok (mkOutcome ((filter (λ a, resolved a.2) attempts).*1)
             (omap attemptError attempts)), os2)
  ∧ attempts.*1 = matches.
Proof.
  intros Horder Hfilter Hstart. split; [|by eapply startAttempts_fst].
  unfold killByPort, bind. rewrite Hfilter, Hstart, Horder.
  by rewrite settle_all_exact.
Qed.

End Listing.

(** ** Numerals: printing and reading back *)

Lemma append_assoc_s (a b c : string) : (a +:+ b) +:+ c = a +:+ (b +:+ c).
Proof.
  induction a as [|x a IH]; [done|]. by rewrite !append_cons, IH.
Qed.

Lemma append_empty_r (a : string) : a +:+ "" = a.
Proof. induction a as [|x a IH]; [done|]. by rewrite append_cons, IH. Qed.

Lemma pretty_N_go_append x s : pretty_N_go x s = pretty_N_go x "" +:+ s.
Proof.
  revert s. induction (N.lt_wf_0 x) as [x _ IH]; intros s.
  assert (x = 0 ∨ 0 < x)%N as [->|Hx] by lia.
  - by rewrite !pretty_N_go_0.
  - rewrite (pretty_N_go_step x s), (pretty_N_go_step x "") by done.
    assert (x `div` 10 < x)%N as Hlt by (by apply N.div_lt).
    rewrite (IH _ Hlt (String (pretty_N_char (x `mod` 10)) s)).
    rewrite (IH _ Hlt (String (pretty_N_char (x `mod` 10)) "")).
    by rewrite append_assoc_s.
Qed.

Lemma decimal_from_snoc acc s c :
  JS.decimal_from acc (s +:+ String c "")
  = 10 * JS.decimal_from acc s + JS.digit_value c.
Proof.
  revert acc. induction s as [|a s IH]; intros acc; [done|].
  rewrite append_cons. simpl. apply IH.
Qed.

Lemma all_digits_append s t :
  JS.all_digits (s +:+ t) = JS.all_digits s && JS.all_digits t.
Proof.
  induction s as [|a s IH]; [done|].
  rewrite append_cons. simpl. by rewrite IH, andb_assoc.
Qed.

Lemma pretty_N_char_digit d :
  (d < 10)%N →
  JS.is_digit (pretty_N_char d) = true ∧ JS.digit_value (pretty_N_char d) = Z.of_N d.
Proof.
  intros Hd.
  assert (d = 0 ∨ d = 1 ∨ d = 2 ∨ d = 3 ∨ d = 4 ∨ d = 5 ∨ d = 6 ∨ d = 7
          ∨ d = 8 ∨ d = 9)%N as Hcases by lia.
  repeat (destruct Hcases as [->|Hcases]; [by vm_compute|]). by subst.
Qed.

(** The digits [pretty] prints for a natural number read back as it. *)
Lemma pretty_N_go_digits x :
  JS.all_digits (pretty_N_go x "") = true
  ∧ JS.decimal_from 0 (pretty_N_go x "") = Z.of_N x.
Proof.
  induction (N.lt_wf_0 x) as [x _ IH].
  assert (x = 0 ∨ 0 < x)%N as [->|Hx] by lia; [done|].
  rewrite pretty_N_go_step, pretty_N_go_append by done.
  destruct (IH (x `div` 10)%N) as [Hall Hval]; [by apply N.div_lt|].
  destruct (pretty_N_char_digit (x `mod` 10)%N) as [Hd Hv];
    [by apply N.mod_lt|].
  split.
  - rewrite all_digits_append, Hall. simpl. by rewrite Hd.
  - rewrite decimal_from_snoc, Hval, Hv.
    pose proof (N.div_mod x 10). lia.
Qed.

Lemma pretty_nonneg_decimal (n : Z) :
  0 ≤ n → is_decimal (pretty n) = true ∧ decimal_value (pretty n) = n.
Proof.
  intros Hn. destruct n as [|p|p]; [done| |lia].
  change (pretty (Z.pos p)) with (pretty_N_go (N.pos p) "").
  destruct (pretty_N_go_digits (N.pos p)) as [Hall Hval].
  unfold is_decimal, decimal_value. rewrite Hall, Hval. split; [|done].
  rewrite andb_true_r. apply negb_true_iff.
  rewrite pretty_N_go_step, pretty_N_go_append by done.
  destruct (snoc_is_cons (pretty_N_go (N.pos p `div` 10) "")
              (pretty_N_char (N.pos p `mod` 10))) as (c & t & ->).
  done.
Qed.

(** ** Properties of the validation *)

Lemma exact_integer_port n : 1 ≤ n ≤ 65535 → exact_integer n.
Proof. unfold exact_integer. lia. Qed.

Lemma parsePort_Ok value p :
  parsePort value = Ok p ↔ JS.parseInt value = Some p ∧ 1 ≤ p ≤ 65535.
Proof.
  unfold parsePort. destruct (JS.parseInt value) as [n|].
  - destruct (JS.isFinite n) eqn:Hfin; cbn [negb orb].
    + destruct (Z.leb_spec n 0); [|destruct (Z.gtb_spec n 65535)]; simpl.
      * split; [done|]. intros [[= ->] ?]. lia.
      * split; [done|]. intros [[= ->] ?]. lia.
      * split; [intros [= <-]; split; [done|lia]|by intros [[= ->] _]].
    + split; [done|]. intros [[= ->] Hp].
      by rewrite (isFinite_exact _ (exact_integer_port _ Hp)) in Hfin.
  - split; [done|]. by intros [? _].
Qed.

Lemma parsePort_Throw value e :
  parsePort value = Throw e → e = new_Error ("Invalid port: " +:+ value).
Proof.
  unfold parsePort. destruct (JS.parseInt value) as [n|]; [|by intros [= <-]].
  destruct (_ || _ || _); [by intros [= <-]|done].
Qed.

Lemma parsePort_of_pretty n : 1 ≤ n ≤ 65535 → parsePort (pretty n) = Ok n.
Proof.
  intros Hn. apply parsePort_Ok. split; [|done].
  destruct (pretty_nonneg_decimal n) as [Hd Hv]; [lia|].
  rewrite (parseInt_decimal _ Hd); rewrite Hv; [done|].
  by apply exact_integer_port.
Qed.

(** X13. [parsePort] returns a port exactly when [Number.parseInt] reads the
    value as an integer from 1 to 65535, and then returns that integer;
    every other value is refused with the message naming the value. *)
Theorem parsePort_iff (value : string) :
  (∀ p, parsePort value = Ok p ↔ JS.parseInt value = Some p ∧ 1 ≤ p ≤ 65535)
  ∧ (∀ e, parsePort value = Throw e → e = new_Error ("Invalid port: " +:+ value)).
Proof.
  split; [intros p; apply parsePort_Ok|intros e; apply parsePort_Throw].
Qed.

(** X14. Printing a port and validating it gives the port back: for every
    integer from 1 to 65535, [parsePort] of its decimal text is that
    integer. *)
Theorem parsePort_pretty (n : Z) :
  1 ≤ n ≤ 65535 → parsePort (pretty n) = Ok n.
Proof.
  apply parsePort_of_pretty.
Qed.

Lemma parsePort_pretty_witness : parsePort (pretty 8080) = Ok 8080.
Proof. apply parsePort_pretty. lia. Defined.

(** X15. A range that [parsePortRange] accepts is well formed: both bounds
    are ports from 1 to 65535 and the first is not above the second (so the
    guard of [filterByPortRange] never answers for a validated range). *)
Theorem parsePortRange_bounds (value : string) (a b : Z) :
  parsePortRange value = Ok (a, b) → 1 ≤ a ∧ a ≤ b ∧ b ≤ 65535 ∧ (a >? b) = false.
Proof.
  unfold parsePortRange.
  destruct (match_port_range _) as [[first second]|]; [|done].
  destruct (parsePort first) as [lo|] eqn:Hlo; [|done].
  destruct (parsePort second) as [hi|] eqn:Hhi; [|done].
  apply parsePort_Ok in Hlo as [_ ?]. apply parsePort_Ok in Hhi as [_ ?].
  destruct (Z.gtb_spec lo hi); [done|]. intros [= <- <-].
  destruct (Z.gtb_spec lo hi); [lia|]. lia.
Qed.

Lemma parsePortRange_bounds_witness :
  1 ≤ 3000 ∧ 3000 ≤ 3999 ∧ 3999 ≤ 65535 ∧ (3000 >? 3999) = false.
Proof. apply (parsePortRange_bounds " 3000 - 3999 "). reflexivity. Defined.

Lemma all_digits_no_space s :
  JS.all_digits s = true → all_chars (λ c, negb (JS.is_space c)) s = true.
Proof.
  induction s as [|c s IH]; simpl; [done|].
  intros [Hc Hs]%andb_true_iff. by rewrite (is_digit_not_space c Hc), IH.
Qed.

Lemma trim_no_space s :
  all_chars (λ c, negb (JS.is_space c)) s = true → JS.trim s = s.
Proof.
  intros Hs. unfold JS.trim.
  assert (JS.trimStart s = s) as ->.
  { destruct s as [|c s]; [done|]. simpl in *.
    apply andb_true_iff in Hs as [Hc _]. apply negb_true_iff in Hc. by rewrite Hc. }
  induction s as [|c s IH]; simpl in *; [done|].
  apply andb_true_iff in Hs as [Hc Hs]. apply negb_true_iff in Hc.
  by rewrite Hc, IH.
Qed.

Lemma take_digits_stop d c r :
  JS.all_digits d = true → JS.is_digit c = false →
  JS.take_digits (d +:+ String c r) = d ∧ JS.skip_digits (d +:+ String c r) = String c r.
Proof.
  intros Hd Hc. induction d as [|a d IH].
  - rewrite append_empty. simpl. by rewrite Hc.
  - simpl in Hd. apply andb_true_iff in Hd as [Ha Hd].
    rewrite append_cons. simpl. rewrite Ha.
    destruct (IH Hd) as [-> ->]. done.
Qed.

(** X16. Printing a range and validating it gives the range back: for ports
    [a ≤ b] from 1 to 65535, [parsePortRange] of the text a-b is the pair
    of [a] and [b]. *)
Theorem parsePortRange_pretty (a b : Z) :
  1 ≤ a → a ≤ b → b ≤ 65535 →
  parsePortRange (pretty a +:+ "-" +:+ pretty b) = Ok (a, b).
Proof.
  intros Ha Hab Hb.
  destruct (pretty_nonneg_decimal a) as [Hda Hva]; [lia|].
  destruct (pretty_nonneg_decimal b) as [Hdb Hvb]; [lia|].
  pose proof Hda as [Hnea Halla]%andb_true_iff.
  pose proof Hdb as [Hneb Hallb]%andb_true_iff.
  unfold parsePortRange. rewrite trim_no_space; last first.
  { rewrite !all_chars_append, (all_digits_no_space _ Halla),
      (all_digits_no_space _ Hallb). reflexivity. }
  unfold match_port_range.
  destruct (take_digits_stop (pretty a) "-" (pretty b) Halla eq_refl) as [Ht Hs].
  change ("-" +:+ pretty b) with (String "-" (pretty b)).
  rewrite Ht, Hs. apply negb_true_iff in Hnea. rewrite Hnea.
  cbn [JS.trimStart JS.is_space].
  assert (JS.trimStart (pretty b) = pretty b) as ->.
  { destruct (pretty b) as [|c r]; [done|]. simpl in Hallb |- *.
    apply andb_true_iff in Hallb as [Hc _]. by rewrite (is_digit_not_space c Hc). }
  rewrite Hneb, Hallb. cbn [andb].
  rewrite !parsePort_of_pretty by lia.
  by destruct (Z.gtb_spec a b); [lia|].
Qed.

Lemma parsePortRange_pretty_witness :
  parsePortRange (pretty 3000 +:+ "-" +:+ pretty 3999) = Ok (3000, 3999).
Proof. apply parsePortRange_pretty; lia. Defined.

(** X17. [parseFormat] returns a format exactly when the value, trimmed and
    in lower case, is text, json or csv, and returns that normalised word;
    an accepted format is accepted again, unchanged. *)
Theorem parseFormat_iff (value f : string) :
  (parseFormat value = Ok f
   ↔ f = JS.toLowerCase (JS.trim value) ∧ (f = "text" ∨ f = "json" ∨ f = "csv"))
  ∧ (parseFormat value = Ok f → parseFormat f = Ok f).
Proof.
  assert (parseFormat value = Ok f
   ↔ f = JS.toLowerCase (JS.trim value) ∧ (f = "text" ∨ f = "json" ∨ f = "csv"))
    as Hiff.
  { unfold parseFormat.
    destruct (String.eqb_spec (JS.toLowerCase (JS.trim value)) "text") as [Ht|Ht];
      [|destruct (String.eqb_spec (JS.toLowerCase (JS.trim value)) "json") as [Hj|Hj];
        [|destruct (String.eqb_spec (JS.toLowerCase (JS.trim value)) "csv") as [Hc|Hc]]];
      simpl.
    - split; [intros [= <-]; auto|]. by intros [-> _].
    - split; [intros [= <-]; auto|]. by intros [-> _].
    - split; [intros [= <-]; auto|]. by intros [-> _].
    - split; [done|]. intros [-> [?|[?|?]]]; done. }
  split; [done|]. intros H. apply Hiff in H as [_ [-> | [-> | ->] ] ]; reflexivity.
Qed.

(** ** Properties of the rendering *)

Lemma undouble_double value : undouble_quotes (double_quotes value) = value.
Proof.
  induction value as [|c value IH]; [done|]. simpl.
  destruct (Ascii.eqb_spec c DQ) as [->|Hc].
  - simpl. by rewrite IH.
  - simpl. rewrite (proj2 (Ascii.eqb_neq c DQ) Hc). by rewrite IH.
Qed.

(** X18. [escapeCsv] loses nothing: reading an escaped field back (dropping
    the enclosing quotes and one quote of every pair) gives the value, so
    two different values never give the same field; and a value without
    quote, comma or line feed is written as it is. *)
Theorem escapeCsv_injective :
  (∀ value, unescapeCsv (escapeCsv value) = value)
  ∧ (∀ a b, escapeCsv a = escapeCsv b → a = b)
  ∧ (∀ value, JS.has_char is_csv_special value = false → escapeCsv value = value).
Proof.
  assert (∀ value, unescapeCsv (escapeCsv value) = value) as Hround.
  { intros value. unfold escapeCsv.
    destruct (JS.has_char is_csv_special value) eqn:Hsp.
    - cbn [unescapeCsv]. rewrite Ascii.eqb_refl.
      by rewrite drop_last_snoc, undouble_double.
    - destruct value as [|c value]; [done|]. cbn [unescapeCsv].
      simpl in Hsp. apply orb_false_iff in Hsp as [Hc _].
      unfold is_csv_special in Hc.
      apply orb_false_iff in Hc as [Hc _]. apply orb_false_iff in Hc as [Hc _].
      by rewrite Hc. }
  split; [done|]. split.
  - intros a b Hab. by rewrite <- (Hround a), <- (Hround b), Hab.
  - intros value Hv. unfold escapeCsv. by rewrite Hv.
Qed.

(** X19. The content saved in a file always ends with a line feed, and
    only one is added: content that already ends with one is saved as it
    is, so saving what was saved changes nothing. *)
Theorem finalContent_ends_with_newline (content : string) :
  JS.endsWith_char (finalContent content) "010" = true
  ∧ (finalContent content = content ∨ finalContent content = content +:+ LF)
  ∧ finalContent (finalContent content) = finalContent content.
Proof.
  assert (JS.endsWith_char (finalContent content) "010" = true) as Hends.
  { unfold finalContent.
    destruct (JS.endsWith_char content "010") eqn:He; [done|].
    unfold JS.endsWith_char, LF. by rewrite last_char_snoc. }
  split; [done|]. split.
  - unfold finalContent. destruct (JS.endsWith_char content "010"); auto.
  - unfold finalContent at 1. by rewrite Hends.
Qed.

(** X20. The empty command the enrichment leaves is never printed: the
    text of a record is the same before and after the enrichment wrote the
    empty string as its command. *)
Theorem formatProcess_ignores_blank_command (processInfo : PortProcess) :
  formatProcess (blankCommand processInfo) = formatProcess processInfo.
Proof.
  unfold blankCommand. destruct (truthy (command processInfo)) eqn:Ht; [done|].
  unfold formatProcess. cbn [command protocol port pid address truthy JS.is_empty negb].
  by rewrite Ht.
Qed.

(** ** Properties of the watch loop *)

Lemma all_digits_no_colon s : JS.all_digits s = true → no_colon s = true.
Proof.
  unfold no_colon. induction s as [|c s IH]; simpl; [done|].
  intros [Hc Hs]%andb_true_iff. rewrite (IH Hs), andb_true_r.
  destruct (is_digit_not_sign c Hc) as (_ & _ & Hcolon).
  apply negb_true_iff. by apply Ascii.eqb_neq.
Qed.

Lemma pretty_no_colon (n : Z) : no_colon (pretty n) = true.
Proof.
  destruct n as [|p|p]; [done| |].
  - apply all_digits_no_colon.
    destruct (pretty_nonneg_decimal (Z.pos p)) as [[_ H]%andb_true_iff _]; [lia|done].
  - change (pretty (Z.neg p)) with ("-" +:+ pretty (Z.pos p)).
    unfold no_colon. rewrite all_chars_append. cbn [all_chars andb negb Ascii.eqb Bool.eqb].
    apply all_digits_no_colon.
    destruct (pretty_nonneg_decimal (Z.pos p)) as [[_ H]%andb_true_iff _]; [lia|done].
Qed.

(** Two strings without colon, each followed by a colon and a rest, are
    equal only piece by piece. *)
Lemma append_colon_inj s1 t1 s2 t2 :
  no_colon s1 = true → no_colon s2 = true →
  s1 +:+ ":" +:+ t1 = s2 +:+ ":" +:+ t2 → s1 = s2 ∧ t1 = t2.
Proof.
  unfold no_colon. revert s2. induction s1 as [|a s1 IH]; intros s2 H1 H2.
  - destruct s2 as [|b s2]; rewrite ?append_cons, !append_empty.
    + by intros [= ->].
    + simpl in H2. apply andb_true_iff in H2 as [Hb _].
      intros [= <- _]. done.
  - simpl in H1. apply andb_true_iff in H1 as [Ha H1].
    destruct s2 as [|b s2]; rewrite ?append_cons, ?append_empty.
    + intros [= -> _]. done.
    + simpl in H2. apply andb_true_iff in H2 as [_ H2].
      intros [= -> Heq]. destruct (IH s2 H1 H2 Heq) as [-> ->]. done.
Qed.

(** X21. The key of the watch loop tells listeners apart: two records whose
    protocols hold no colon (as TCP and UDP) have the same key exactly when
    they have the same protocol, the same port and the same process id. *)
Theorem makeKey_injective (a b : PortProcess) :
  no_colon (protocol a) = true → no_colon (protocol b) = true →
  (makeKey a = makeKey b
   ↔ protocol a = protocol b ∧ port a = port b ∧ pid a = pid b).
Proof.
  intros Ha Hb. unfold makeKey. split.
  - intros [Hproto Hrest]%append_colon_inj; [|done..].
    apply append_colon_inj in Hrest as [Hport Hpid]; [|apply pretty_no_colon..].
    split; [done|]. split; by apply (inj pretty).
  - by intros (-> & -> & ->).
Qed.

Lemma makeKey_injective_witness :
  makeKey (mkPortProcess 4821 3000 "TCP" "*" (Some "node"))
  = makeKey (mkPortProcess 4821 3000 "TCP" "::1" None)
  ↔ "TCP" = "TCP" ∧ 3000 = 3000 ∧ 4821 = 4821.
Proof.
  apply (makeKey_injective (mkPortProcess 4821 3000 "TCP" "*" (Some "node"))
           (mkPortProcess 4821 3000 "TCP" "::1" None)); reflexivity.
Defined.

(** A render never writes the stop notice. *)
Lemma render_lines_not_stop seenKeys fetched :
  ¬ In stopLine
      match fetched with
      | Ok _ => Log <$> printed (renderFetched seenKeys fetched)
      | Throw _ => Err <$> printed (renderFetched seenKeys fetched)
      end.
Proof.
  destruct fetched as [processes|e].
  - rewrite renderFetched_Ok. cbn [printed].
    intros (line & Hline & Hin)%in_map_iff. injection Hline as Hline.
    destruct (decide (processes = [])).
    + destruct Hin as [<-|[]]. discriminate Hline.
    + apply in_map_iff in Hin as (proc & <- & _).
      unfold entryLine in Hline. by destruct (bool_decide _).
  - intros (line & Hline & _)%in_map_iff. discriminate Hline.
Qed.

Lemma watchStart_invariant : watch_invariant (watchStart true).
Proof. unfold watch_invariant. simpl. repeat split; auto; done. Qed.

Lemma watchStep_invariant st ev st' :
  watch_invariant st → watchStep true st ev = Some st' → watch_invariant st'.
Proof.
  intros Hinv. pose proof Hinv as (Harmed & Hstopped & Hbusy & Hcount).
  destruct ev as [buffer| |fetched]; cbn [watchStep].
  - destruct (listening st) eqn:Hl; [|done]. intros [= <-].
    unfold onData. destruct (buffer !! 0%nat) as [byte|]; [|done].
    destruct ((byte =? 3) || (byte =? 17)); [|done].
    unfold stopWatching. destruct (stopped st) eqn:Hs; [done|].
    unfold watch_invariant. cbn [stopped pending timer armed listening console].
    split; [|split; [done|split; [auto|]]].
    + destruct (timer st) eqn:Ht; [done|].
      intros Ha. destruct (Harmed Ha) as (_ & _ & ?). congruence.
    + rewrite count_occ_app, Hcount. simpl.
      by destruct (Line_eq_dec stopLine stopLine).
  - destruct (armed st) eqn:Ha; [|done]. intros [= <-].
    destruct (Harmed eq_refl) as (Hs & Hp & Ht).
    unfold scheduleBegin. cbn [stopped pending]. rewrite Hs, Hp.
    unfold watch_invariant. cbn [stopped pending timer armed listening console].
    split; [done|]. split; [done|]. split; [auto|]. by rewrite Hs in Hcount.
  - destruct (pending st) eqn:Hp; [|done]. intros [= <-].
    unfold scheduleEnd, watch_invariant.
    cbn [stopped pending timer armed listening console].
    split; [|split; [done|split]].
    + destruct (stopped st) eqn:Hs; [|done].
      intros Ha. destruct (Harmed Ha) as (? & _). congruence.
    + destruct (stopped st); auto.
    + rewrite count_occ_app, Hcount.
      rewrite (proj1 (count_occ_not_In Line_eq_dec _ _)
                 (render_lines_not_stop (seen st) fetched)). lia.
Qed.

Lemma watchRun_invariant st events st' :
  watch_invariant st → watchRun true st events = Some st' → watch_invariant st'.
Proof.
  revert st. induction events as [|ev events IH]; intros st Hinv; simpl.
  - by intros [= <-].
  - destruct (watchStep true st ev) as [st1|] eqn:Hstep; [|done].
    apply IH. by eapply watchStep_invariant.
Qed.

(** X22. At every moment of a run of the watch loop on a terminal: a
    timeout is armed only while the loop is not stopped and no render is in
    flight (so a timeout never fires into a running render, and none is left
    after a stop); the loop is never idle, it is rendering, waiting for its
    timeout, or stopped; and the notice of the stop is on the console
    exactly once when the loop stopped, and not at all otherwise. *)
Theorem watch_loop_safe (events : list WatchEvent) (st : WatchState) :
  watchRun true (watchStart true) events = Some st →
  (armed st = true → stopped st = false ∧ pending st = false)
  ∧ (pending st = true ∨ armed st = true ∨ stopped st = true)
  ∧ count_occ Line_eq_dec (console st) stopLine = (if stopped st then 1 else 0)%nat.
Proof.
  intros Hrun.
  destruct (watchRun_invariant _ _ _ watchStart_invariant Hrun)
    as (Harmed & _ & Hbusy & Hcount).
  split; [|done]. intros Ha. by destruct (Harmed Ha) as (? & ? & _).
Qed.

(** X23. A stop is final: in a run of the watch loop on a terminal, once the
    loop is stopped the only event that can still happen is the completion
    of the render that was in flight; that render sets no timeout, and
    after it no event can happen at all (no key is listened to, no timeout
    fires, no render starts). *)
Theorem watch_stop_is_final (events : list WatchEvent) (st : WatchState) :
  watchRun true (watchStart true) events = Some st →
  stopped st = true →
  (∀ ev st', watchStep true st ev = Some st' →
     (∃ fetched, ev = RenderDone fetched)
     ∧ stopped st' = true
     ∧ ∀ ev', watchStep true st' ev' = None)
  ∧ (pending st = false → ∀ ev, watchStep true st ev = None).
Proof.
  intros Hrun Hs.
  destruct (watchRun_invariant _ _ _ watchStart_invariant Hrun)
    as (Harmed & Hstopped & _ & _).
  assert (armed st = false) as Ha.
  { destruct (armed st) eqn:Ha; [|done]. destruct (Harmed eq_refl). congruence. }
  pose proof (Hstopped Hs) as Hl.
  split.
  - intros ev st'. destruct ev as [buffer| |fetched]; cbn [watchStep].
    + by rewrite Hl.
    + by rewrite Ha.
    + destruct (pending st); [|done]. intros [= <-].
      split; [by eexists|]. unfold scheduleEnd. cbn [stopped]. split; [done|].
      intros [buffer'| |fetched']; cbn [watchStep listening armed pending];
        by rewrite ?Hl, ?Hs, ?Ha.
  - intros Hp [buffer| |fetched]; cbn [watchStep]; by rewrite ?Hl, ?Ha, ?Hp.
Qed.

Lemma watch_loop_safe_witness :
  (false = true → true = false ∧ false = false)
  ∧ (false = true ∨ false = true ∨ true = true)
  ∧ count_occ Line_eq_dec
      [Log "No matching listening processes found."; stopLine;
       Log "No matching listening processes found."] stopLine = 1%nat.
Proof.
  apply (watch_loop_safe [RenderDone (Ok []); TimerFires; KeyData [3]; RenderDone (Ok [])]
           (mkWatchState true false false false false ∅
              [Log "No matching listening processes found."; stopLine;
               Log "No matching listening processes found."])).
  vm_compute. reflexivity.
Defined.

Lemma watch_stop_is_final_witness :
  watchStep true
    (mkWatchState true false false false false ∅
       [Log "No matching listening processes found."; stopLine;
        Log "No matching listening processes found."]) TimerFires = None
  ∧ watchStep true
      (mkWatchState true false false false false ∅
         [Log "No matching listening processes found."; stopLine;
          Log "No matching listening processes found."]) (KeyData [3]) = None.
Proof.
  assert (∀ ev, watchStep true
          (mkWatchState true false false false false ∅
             [Log "No matching listening processes found."; stopLine;
              Log "No matching listening processes found."]) ev = None) as H.
  { apply (watch_stop_is_final
             [RenderDone (Ok []); TimerFires; KeyData [17]; RenderDone (Ok [])]
             (mkWatchState true false false false false ∅
                [Log "No matching listening processes found."; stopLine;
                 Log "No matching listening processes found."]));
      [vm_compute; reflexivity|reflexivity|reflexivity]. }
  split; apply H.
Defined.

(** ** Properties of the interactive grouping *)

Lemma groupByPort_fold (processes : list PortProcess)
    (portMap : gmap Z (list PortProcess)) (q : Z) :
  let grouped :=
    fold_left
      (λ (m : gmap Z (list PortProcess)) processInfo,
         <[port processInfo := default [] (m !! port processInfo) ++ [processInfo]]> m)
      processes portMap in
  default [] (grouped !! q)
  = default [] (portMap !! q) ++ filter (λ r, port r = q) processes
  ∧ (is_Some (grouped !! q) ↔ is_Some (portMap !! q) ∨ q ∈ port <$> processes).
Proof.
  revert portMap. induction processes as [|x processes IH]; intros portMap; cbv zeta.
  - cbn [fold_left]. rewrite filter_nil, app_nil_r. split; [done|].
    rewrite fmap_nil. split; [auto|]. intros [?|?%elem_of_nil]; done.
  - cbn [fold_left]. destruct (IH (<[port x := default [] (portMap !! port x) ++ [x]]> portMap))
      as [Hget Hkey].
    cbv zeta in Hget, Hkey. rewrite Hget, Hkey. rewrite filter_cons, fmap_cons.
    destruct (decide (port x = q)) as [<-|Hne].
    + rewrite lookup_insert_eq. cbn [default from_option id].
      split; [by rewrite <- app_assoc|].
      split; [intros _; right; left|intros _; left; by eexists].
    + rewrite lookup_insert_ne by done. split; [done|].
      split; [intros [?|?]; [by left|by right; right]|].
      intros [?|[?|?]%elem_of_cons]; [by left|congruence|by right].
Qed.

Lemma findByPid_Some matches selectedPid :
  selectedPid ∈ pid <$> matches →
  ∃ target, findByPid matches selectedPid = Some target
            ∧ target ∈ matches ∧ pid target = selectedPid.
Proof.
  unfold findByPid. intros (r & Hr & Hin)%list_elem_of_fmap.
  assert (r ∈ filter (λ item, pid item = selectedPid) matches) as Hf.
  { by apply list_elem_of_filter. }
  destruct (filter _ matches) as [|t l] eqn:Hfilter; [by apply elem_of_nil in Hf|].
  exists t. split; [done|].
  assert (t ∈ filter (λ item, pid item = selectedPid) matches) as Ht.
  { rewrite Hfilter. left. }
  apply list_elem_of_filter in Ht as [? ?]. done.
Qed.

(** X24. The interactive command groups the listing by port without losing
    or moving a record: the listeners it offers for a port are exactly the
    records of the listing with that port, in the order of the listing (what
    a filter by that port gives on the same listing); a port is among the
    choices exactly when a record has it; and a process id chosen among the
    listeners of the chosen port always resolves to a record of that port
    with that process id. *)
Theorem groupByPort_spec (processes : list PortProcess) (selectedPort selectedPid : Z) :
  let matches := default [] (groupByPort processes !! selectedPort) in
  matches = filter (λ item, port item = selectedPort) processes
  ∧ (is_Some (groupByPort processes !! selectedPort)
     ↔ selectedPort ∈ port <$> processes)
  ∧ (selectedPid ∈ pid <$> matches →
     ∃ target, findByPid matches selectedPid = Some target
               ∧ target ∈ processes
               ∧ port target = selectedPort ∧ pid target = selectedPid).
Proof.
  cbv zeta. unfold groupByPort.
  destruct (groupByPort_fold processes ∅ selectedPort) as [Hget Hkey].
  cbv zeta in Hget, Hkey. rewrite lookup_empty in Hget, Hkey.
  cbn [default from_option app] in Hget. rewrite Hget.
  split; [done|]. split.
  - rewrite Hkey. split; [intros [[? ?]|?]; done|auto].
  - intros Hsel. destruct (findByPid_Some _ _ Hsel) as (target & Hfind & Hin & Hpid).
    exists target. apply list_elem_of_filter in Hin as [Hport Hin]. done.
Qed.

Lemma groupByPort_spec_witness :
  ∃ target, findByPid (default [] (groupByPort demo_matches !! 3000)) 4821 = Some target
            ∧ target ∈ demo_matches ∧ port target = 3000 ∧ pid target = 4821.
Proof.
  apply (groupByPort_spec demo_matches 3000 4821).
  vm_compute. right. left.
Defined.

(** ** Properties of the commands *)

Section CommandProperties.
Context {OS : Type}.
Variable win32 : bool.
Variable execAsync : string → Async (OS:=OS) string.
Variable findProcess : Z → Async (OS:=OS) (list ProcessInfo).
Variable process_kill : Z → Async (OS:=OS) unit.
Variable settle_order :
  list (PortProcess * Settled unit) → list (PortProcess * Settled unit).
Variable writeFile : string → string → Async (OS:=OS) unit.
Variable confirmPrompt : string → Async (OS:=OS) bool.
Variable stringify : list PortProcess → string.

(** X25. A port that does not validate stops the inspect and the kill
    command before anything is run: the machine is left as it was, the only
    line written is the error of the validation, and the exit code is 1. *)
Theorem invalid_port_runs_nothing (portValue : string) (e : Thrown) (os : OS)
    (format destination : option string) (force : bool) :
  parsePort portValue = Throw e →
  e = new_Error ("Invalid port: " +:+ portValue)
  ∧ inspectCommand win32 execAsync findProcess writeFile stringify
      portValue format destination os
    = (mkCommandResult [Err ("Invalid port: " +:+ portValue)] (Some 1), os)
  ∧ killCommand win32 execAsync findProcess process_kill settle_order confirmPrompt
      portValue force os
    = (mkCommandResult [Err ("Invalid port: " +:+ portValue)] (Some 1), os).
Proof.
  intros Hport. pose proof (parsePort_Throw portValue e Hport) as ->.
  unfold inspectCommand, killCommand. by rewrite Hport.
Qed.

(** X26. Without [--force], a declined confirmation terminates nothing: the
    kill command writes the preview of the matched listeners and the notice
    that the termination is aborted, sets no exit code, and leaves the
    machine as the prompt left it (no second discovery, no signal, no
    tool). *)
Theorem declined_kill_terminates_nothing (portValue : string) (p : Z)
    (os os1 os2 : OS) (matches : list PortProcess) (question : string) :
  parsePort portValue = Ok p →
  filterByPort win32 execAsync findProcess p os = (Ok matches, os1) →
  matches ≠ [] →
  question = "Proceed with terminating " +:+ pretty (Z.of_nat (length matches))
             +:+ " process(es) on port " +:+ pretty p +:+ "?" →
  confirmPrompt question os1 = (Ok false, os2) →
  killCommand win32 execAsync findProcess process_kill settle_order confirmPrompt
    portValue false os
  = (mkCommandResult
       (Log "The following processes will be terminated:"
        :: ((λ item, Log (" - " +:+ formatProcess item)) <$> matches)
        ++ [Log "Termination aborted."])
       None, os2).
Proof.
  intros Hport Hfilter Hne -> Hprompt. unfold killCommand.
  rewrite Hport, Hfilter. destruct matches as [|m matches]; [done|].
  change ((length (m :: matches) =? 0)%nat) with false. cbv iota.
  by rewrite Hprompt.
Qed.

(** X27. Once the kill command goes ahead (with [--force], or after the
    confirmation was given), it looks the listeners up a second time:
    it reports the outcome of [killByPort] run on the machine as the first
    discovery (and the prompt) left it, one line per matched record after
    the preview, and sets the exit code 1 exactly when that outcome holds a
    failure, with or without [--force]. *)
Theorem kill_reports_outcome (portValue : string) (p : Z) (force : bool)
    (os os1 os2 os3 : OS) (matches : list PortProcess) (lines : list Line)
    (out : TerminationOutcome) :
  parsePort portValue = Ok p →
  filterByPort win32 execAsync findProcess p os = (Ok matches, os1) →
  matches ≠ [] →
  (force = true ∧ os2 = os1 ∧ lines = [])
  ∨ (force = false
     ∧ confirmPrompt
         ("Proceed with terminating " +:+ pretty (Z.of_nat (length matches))
          +:+ " process(es) on port " +:+ pretty p +:+ "?") os1 = (Ok true, os2)
     ∧ lines = Log "The following processes will be terminated:"
               :: ((λ item, Log (" - " +:+ formatProcess item)) <$> matches)) →
  killByPort win32 execAsync findProcess process_kill settle_order p os2
    = (Ok out, os3) →
  ∃ code,
    killCommand win32 execAsync findProcess process_kill settle_order confirmPrompt
      portValue force os
    = (mkCommandResult (lines ++ reportOutcome out) code, os3)
    ∧ length (reportOutcome out) = (length (success out) + length (failed out))%nat
    ∧ (code = Some 1 ↔ failed out ≠ [])
    ∧ (code = None ↔ failed out = []).
Proof.
  intros Hport Hfilter Hne Hpath Hkill. unfold killCommand.
  rewrite Hport, Hfilter. destruct matches as [|m matches]; [done|].
  change ((length (m :: matches) =? 0)%nat) with false. cbv iota.
  assert (∃ code,
    killConfirmed win32 execAsync findProcess process_kill settle_order p lines os2
    = (mkCommandResult (lines ++ reportOutcome out) code, os3)
    ∧ length (reportOutcome out) = (length (success out) + length (failed out))%nat
    ∧ (code = Some 1 ↔ failed out ≠ [])
    ∧ (code = None ↔ failed out = [])) as (code & Hrun & Hrest).
  { unfold killConfirmed. rewrite Hkill. eexists. split; [done|].
    split; [unfold reportOutcome; by rewrite length_app, !length_fmap|].
    destruct (failed out); simpl; split; split; done. }
  exists code. split; [|done].
  destruct Hpath as [(-> & -> & ->)|(-> & Hprompt & ->)]; [done|].
  by rewrite Hprompt.
Qed.

End CommandProperties.

(** X28. [parsePort] reads the leading numeral and ignores what follows it:
    a value that starts with a decimal numeral from 1 to 65535, followed by
    nothing or by anything that does not start with a digit, is accepted as
    that port. *)
Theorem parsePort_ignores_suffix (digits rest : string) :
  is_decimal digits = true →
  1 ≤ decimal_value digits ≤ 65535 →
  JS.take_digits rest = "" →
  parsePort (digits +:+ rest) = Ok (decimal_value digits).
Proof.
  intros Hd Hrange Hrest. apply parsePort_Ok. split; [|done].
  rewrite <- (round_double_exact _ (exact_integer_port _ Hrange)).
  pose proof Hd as [Hne Hall]%andb_true_iff.
  destruct digits as [|c digits]; [done|].
  pose proof Hall as Hall'. simpl in Hall'. apply andb_true_iff in Hall' as [Hc _].
  unfold JS.parseInt. rewrite append_cons. cbn [JS.trimStart].
  rewrite (is_digit_not_space c Hc), (split_sign_digit c _ Hc).
  rewrite <- append_cons.
  assert (JS.take_digits (String c digits +:+ rest) = String c digits) as ->.
  { destruct rest as [|r rest].
    - rewrite append_empty_r. by apply take_digits_all.
    - apply take_digits_stop; [done|]. simpl in Hrest.
      by destruct (JS.is_digit r). }
  cbn [JS.is_empty]. do 2 f_equal. unfold decimal_value. lia.
Qed.

Lemma parsePort_ignores_suffix_witness : parsePort "3000abc" = Ok 3000.
Proof.
  apply (parsePort_ignores_suffix "3000" "abc"); [reflexivity|vm_compute|reflexivity].
  split; discriminate.
Defined.

(** ** The further properties on the small machine *)

Lemma listing_rearranges_discovery_witness :
  ∃ base os1,
    getUnixProcesses demo_exec demo_os = (Ok base, os1)
    ∧ demo_sorted ≡ₚ blankCommand <$> base
    ∧ length demo_sorted = length base.
Proof.
  apply (listing_rearranges_discovery false demo_exec demo_findProcess
           demo_os demo_os demo_sorted).
  vm_compute. reflexivity.
Defined.

Lemma listing_is_stable_witness :
  ∃ base os1,
    getUnixProcesses dual_exec tt = (Ok base, os1)
    ∧ filter (λ r, port r = 3000 ∧ pid r = 4821) dual_sorted
      = filter (λ r, port r = 3000 ∧ pid r = 4821) (blankCommand <$> base).
Proof.
  apply (listing_is_stable false dual_exec quiet_findProcess tt tt dual_sorted 3000 4821).
  vm_compute. reflexivity.
Defined.

Lemma unix_listing_is_sorted_parse_witness :
  ∃ text os1,
    getUnixProcesses demo_exec demo_os = (Ok (parseUnixOutput text), os1)
    ∧ enrichProcesses demo_findProcess (parseUnixOutput text) os1
      = (Ok (parseUnixOutput text), demo_os)
    ∧ demo_sorted = sortProcesses (parseUnixOutput text).
Proof.
  apply (unix_listing_is_sorted_parse demo_exec demo_findProcess demo_os demo_os).
  vm_compute. reflexivity.
Defined.

Lemma windows_listing_propagates_witness :
  getWindowsProcesses partial_exec tt = (Throw partial_failure, tt)
  ∧ listListeningProcesses true partial_exec quiet_findProcess tt
    = (Throw partial_failure, tt).
Proof.
  apply (windows_listing_propagates partial_exec quiet_findProcess tt tt partial_failure).
  reflexivity.
Defined.

Lemma killByPort_no_listener_witness :
  killByPort false demo_exec demo_findProcess demo_kill demo_order 1234 demo_os
  = (Ok (mkOutcome [] []), demo_os).
Proof.
  apply (killByPort_no_listener false demo_exec demo_findProcess demo_kill demo_order
           1234 demo_os demo_os).
  - intros attempts. reflexivity.
  - vm_compute. reflexivity.
Defined.

Lemma killByPort_in_order_witness :
  killByPort false demo_exec demo_findProcess demo_kill demo_order 3000 demo_os
  = (Ok (mkOutcome ((filter (λ a, resolved a.2) demo_attempts).*1)
           (omap attemptError demo_attempts)), [551; 9000])
  ∧ demo_attempts.*1 = demo_matches.
Proof.
  apply (killByPort_in_order false demo_exec demo_findProcess demo_kill demo_order
           3000 demo_os demo_os [551; 9000] demo_matches demo_attempts).
  - intros l. reflexivity.
  - vm_compute. reflexivity.
  - vm_compute. reflexivity.
Defined.

Lemma parseFormat_iff_witness :
  parseFormat "  JSON " = Ok "json" ∧ parseFormat "json" = Ok "json".
Proof.
  assert (parseFormat "  JSON " = Ok "json") as H.
  { apply (proj1 (parseFormat_iff "  JSON " "json")). split; [reflexivity|auto]. }
  split; [exact H|]. exact (proj2 (parseFormat_iff "  JSON " "json") H).
Defined.

Lemma escapeCsv_injective_witness :
  escapeCsv "node server.js" = "node server.js"
  ∧ unescapeCsv (escapeCsv "sh -c a,b") = "sh -c a,b".
Proof.
  destruct escapeCsv_injective as (Hround & _ & Hplain).
  split; [apply Hplain; reflexivity|apply Hround].
Defined.

Lemma invalid_port_runs_nothing_witness :
  inspectCommand false demo_exec demo_findProcess demo_writeFile demo_stringify
    "70000" None None demo_os
  = (mkCommandResult [Err "Invalid port: 70000"] (Some 1), demo_os)
  ∧ killCommand false demo_exec demo_findProcess demo_kill demo_order demo_decline
      "70000" true demo_os
    = (mkCommandResult [Err "Invalid port: 70000"] (Some 1), demo_os).
Proof.
  apply (invalid_port_runs_nothing false demo_exec demo_findProcess demo_kill
           demo_order demo_writeFile demo_decline demo_stringify
           "70000" (new_Error "Invalid port: 70000") demo_os None None true).
  reflexivity.
Defined.

Lemma declined_kill_terminates_nothing_witness :
  killCommand false demo_exec demo_findProcess demo_kill demo_order demo_decline
    "3000" false demo_os
  = (mkCommandResult
       (Log "The following processes will be terminated:"
        :: ((λ item, Log (" - " +:+ formatProcess item)) <$> demo_matches)
        ++ [Log "Termination aborted."])
       None, demo_os).
Proof.
  apply (declined_kill_terminates_nothing false demo_exec demo_findProcess demo_kill
           demo_order demo_decline "3000" 3000 demo_os demo_os demo_os demo_matches
           "Proceed with terminating 2 process(es) on port 3000?").
  - reflexivity.
  - vm_compute. reflexivity.
  - discriminate.
  - vm_compute. reflexivity.
  - reflexivity.
Defined.

Lemma kill_reports_outcome_witness :
  ∃ code,
    killCommand false demo_exec demo_findProcess demo_kill demo_order demo_decline
      "3000" true demo_os
    = (mkCommandResult ([] ++ reportOutcome demo_outcome) code, [551; 9000])
    ∧ length (reportOutcome demo_outcome)
      = (length (success demo_outcome) + length (failed demo_outcome))%nat
    ∧ (code = Some 1 ↔ failed demo_outcome ≠ [])
    ∧ (code = None ↔ failed demo_outcome = []).
Proof.
  apply (kill_reports_outcome false demo_exec demo_findProcess demo_kill demo_order
           demo_decline "3000" 3000 true demo_os demo_os demo_os [551; 9000]
           demo_matches [] demo_outcome).
  - reflexivity.
  - vm_compute. reflexivity.
  - discriminate.
  - left. by repeat split.
  - vm_compute. reflexivity.
Defined.
